(** * slackdump: the concurrent file-download pipeline (files.go)

    A shallow embedding of [files.go]: attachment extraction
    ([filesFromMessages], [ChannelFiles]), the download operation
    ([SaveFileTo], [filename]), the per-item worker loop ([worker]), the
    deduplication stage ([seenFilter]) and the coordinator
    ([fileDownloader]) with its goroutines as an interleaving transition
    system; and, of the command-line program, [trunc] (main.go) and the
    dialogue loops [fileSelector], [surveyEmojis] and
    [questConversationList] (interactive.go). *)

From Stdlib Require Import ZArith Lia.
From stdpp Require Import base option list strings gmap.

Open Scope Z_scope.

Set Warnings "-register-all".

(** ** Data model *)

(** The fields of [slack.File] that [files.go] reads. *)
Record File := mkFile {
  ID : string;
  Name : string;
  Size : Z;
  URLPrivateDownload : string
}.

(** [Message]: the embedded [slack.Message] contributes [Files], a slice
    that may be nil ([None]); [ThreadReplies] is a slice of [Message]. *)
Inductive Message := mkMessage {
  Files : option (list File);
  ThreadReplies : list Message
}.

(** [type Files struct { Files []slack.File; ChannelID string }] *)
Record ChannelFileSet := mkFiles {
  cf_Files : list File;
  cf_ChannelID : string
}.

(** [type Channel]: the fields [ChannelFiles] reads. *)
Record Channel := mkChannel {
  ch_Messages : list Message;
  ch_ID : string
}.

(** ** Attachment extraction *)

(** [append(files, s...)] for a slice [s] that may be nil. *)
Definition append_slice (files : list File) (s : option (list File)) : list File :=
  match s with
  | Some fs => files ++ fs
  | None => files
  end.

(** The inner loop [for _, reply := range m[i].ThreadReplies]. *)
Fixpoint append_replies (files : list File) (replies : list Message) : list File :=
  match replies with
  | [] => files
  | reply :: rest => append_replies (append_slice files (Files reply)) rest
  end.

(** The outer loop [for i := range m], threading the accumulator [files]. *)
Fixpoint filesFromMessages_loop (files : list File) (m : list Message) : list File :=
  match m with
  | [] => files
  | mi :: rest =>
      let files1 :=
        match Files mi with
        | Some fs => files ++ fs          (* if m[i].Files != nil *)
        | None => files
        end in
      filesFromMessages_loop (append_replies files1 (ThreadReplies mi)) rest
  end.

(** [filesFromMessages]: [var files []slack.File] starts out nil. *)
Definition filesFromMessages (m : list Message) : list File :=
  filesFromMessages_loop [] m.

Definition ChannelFiles (ch : Channel) : ChannelFileSet :=
  {| cf_Files := filesFromMessages (ch_Messages ch); cf_ChannelID := ch_ID ch |}.

(** The extraction order in the words of the specification: the direct
    attachments of a message, then those of its replies. *)
Definition attachments_of (s : option (list File)) : list File := default [] s.

Definition message_attachments (m : Message) : list File :=
  attachments_of (Files m) ++
  concat (map (fun r => attachments_of (Files r)) (ThreadReplies m)).

Definition extraction_order (m : list Message) : list File :=
  concat (map message_attachments m).

(** A missing attachment list replaced by an empty one, on a message and
    on its replies. *)
Definition fill_missing_reply (r : Message) : Message :=
  {| Files := Some (attachments_of (Files r)); ThreadReplies := ThreadReplies r |}.

Definition fill_missing (m : Message) : Message :=
  {| Files := Some (attachments_of (Files m));
     ThreadReplies := map fill_missing_reply (ThreadReplies m) |}.

(** [filename]: [fmt.Sprintf("%s-%s", f.ID, f.Name)]. *)
Definition filename (f : File) : string := (ID f ++ "-" ++ Name f)%string.

(** ** The world outside the program *)

(** Operating-system error numbers that matter to [os.IsExist]. *)
Inductive errno := EEXIST | ENOTEMPTY | ENOENT | EACCES | EISDIR | ENOTDIR | ENOSPC.

(** Go [error] values that reach [files.go]: a [*fs.PathError] from package
    [os], an error of the Slack client, and [errors.WithStack] around one. *)
Inductive error :=
| PathError (op path : string) (e : errno)
| ClientError (msg : string)
| WithStack (err : error).

(** [os.IsExist]: looks through a [*PathError] only. *)
Definition os_IsExist (err : error) : bool :=
  match err with
  | PathError _ _ EEXIST | PathError _ _ ENOTEMPTY => true
  | _ => false
  end.

Inductive node :=
| Dir
| RegFile (content : list Byte.byte).

(** Lines written with [log.Printf]. *)
Inductive logline :=
| LogSaving (name : string) (size : Z)       (* "saving %s, size: %d" *)
| LogErrorSaving (name : string) (err : error) (* "error saving %q: %s" *)
| LogSaved (name : string) (n : Z)           (* "file %s saved: %d bytes written" *)
| LogSkip (name : string).                   (* "already seen %s, skipping" *)

(** Calls that leave the program, in the order they are made. *)
Inductive event :=
| EvMkdir (dir : string)
| EvCreate (path : string)
| EvGetFile (url path : string)
| EvWait
| EvClose (path : string)
| EvLog (l : logline).

Record World := mkWorld {
  fs : gmap string node;     (* the file system: path to node *)
  waits : nat;               (* permits taken from the rate limiter *)
  trace : list event         (* chronological *)
}.

(** What the program cannot decide: path joining, refusals of the operating
    system, and what the server streams for a URL (the bytes that reach the
    writer, and whether the transfer then fails). *)
Record Env := mkEnv {
  Join : string → string → string;
  mkdir_fault : string → option errno;
  create_fault : string → option errno;
  remote : string → list Byte.byte * option error
}.

(** A state monad over the world. *)
Definition M (A : Type) : Type := World → A * World.

Definition ret {A} (a : A) : M A := λ w, (a, w).

Definition bind {A B} (c : M A) (k : A → M B) : M B :=
  λ w, let '(a, w1) := c w in k a w1.

Notation "'let*' x := c 'in' k" := (bind c (λ x, k))
  (at level 10, x name, c at level 100, k at level 200, only parsing).
Notation "'let*' ' p := c 'in' k" := (bind c (λ x, match x with p => k end))
  (at level 10, p pattern, c at level 100, k at level 200, only parsing).

Definition emit (e : event) : M unit :=
  λ w, (tt, {| fs := fs w; waits := waits w; trace := trace w ++ [e] |}).

Definition log_Printf (l : logline) : M unit := emit (EvLog l).

Definition set_node (path : string) (n : node) : M unit :=
  λ w, (tt, {| fs := <[path := n]> (fs w); waits := waits w; trace := trace w |}).

Section Program.

Context (env : Env).

(** [os.Mkdir(dir, 0777)]: fails with EEXIST when the path names anything,
    with the environment's fault if it has one, and creates the directory
    otherwise. *)
Definition os_Mkdir (dir : string) : M (option error) :=
  let* _ := emit (EvMkdir dir) in
  λ w, match fs w !! dir with
       | Some _ => ret (Some (PathError "mkdir" dir EEXIST)) w
       | None =>
           match mkdir_fault env dir with
           | Some e => ret (Some (PathError "mkdir" dir e)) w
           | None => (let* _ := set_node dir Dir in ret None) w
           end
       end.

(** [os.Create(path)]: creates the file or truncates it. *)
Definition os_Create (path : string) : M (option error) :=
  let* _ := emit (EvCreate path) in
  λ w, match fs w !! path with
       | Some Dir => ret (Some (PathError "open" path EISDIR)) w
       | _ =>
           match create_fault env path with
           | Some e => ret (Some (PathError "open" path e)) w
           | None => (let* _ := set_node path (RegFile []) in ret None) w
           end
       end.

(** [client.GetFile(url, file)]: the bytes the server streams are written
    after what the file holds; an error may follow them. *)
Definition GetFile (url path : string) : M (option error) :=
  let* _ := emit (EvGetFile url path) in
  λ w, let '(bytes, err) := remote env url in
       match fs w !! path with
       | Some (RegFile old) => (let* _ := set_node path (RegFile (old ++ bytes)) in ret err) w
       | _ => ret err w
       end.

(** [l.Wait(ctx)] inside [trace.WithRegion]; its result is dropped. *)
Definition limiter_Wait : M unit :=
  let* _ := emit EvWait in
  λ w, (tt, {| fs := fs w; waits := S (waits w); trace := trace w |}).

Definition file_Close (path : string) : M unit := emit (EvClose path).

(** ** The download operation *)

Definition SaveFileTo (dir : string) (f : File) : M (Z * option error) :=
  let filePath := Join env dir (filename f) in
  let* r := os_Create filePath in
  match r with
  | Some err => ret (0, Some err)
  | None =>
      (* defer file.Close() *)
      let* res := (let* e := GetFile (URLPrivateDownload f) filePath in
              match e with
              | Some err => ret (0, Some (WithStack err))
              | None => let* _ := limiter_Wait in ret (Size f, None)
              end) in
      let* _ := file_Close filePath in
      ret res
  end.

(** ** The worker loop *)

(** The body of [for file := range filesC]. *)
Definition worker_body (dir : string) (file : File) : M unit :=
  let* _ := log_Printf (LogSaving (filename file) (Size file)) in
  let* '(n, err) := SaveFileTo dir file in
  let* _ := match err with
       | Some e => log_Printf (LogErrorSaving (filename file) e)
       | None => ret tt
       end in
  log_Printf (LogSaved (filename file) n).

(** [worker] on the sequence of items its channel delivers before it is
    closed. *)
Fixpoint worker (dir : string) (filesC : list File) : M unit :=
  match filesC with
  | [] => ret tt
  | file :: rest => let* _ := worker_body dir file in worker dir rest
  end.

End Program.

(** ** The deduplication stage *)

(** One iteration of [for f := range filesC] in [seenFilter]: the new
    [seen] map and the item sent on [dlQ], if any. *)
Definition seenFilter_body (seen : gmap string bool) (f : File)
  : M (gmap string bool * option File) :=
  match seen !! ID f with
  | Some _ =>                         (* _, ok := seen[f.ID]; ok *)
      let* _ := log_Printf (LogSkip (filename f)) in
      ret (seen, None)
  | None => ret (<[ID f := true]> seen, Some f)
  end.

Fixpoint seenFilter_loop (seen : gmap string bool) (filesC : list File)
  : M (list File) :=
  match filesC with
  | [] => ret []                      (* defer close(dlQ) *)
  | f :: rest =>
      let* '(seen1, sent) := seenFilter_body seen f in
      let* dlQ := seenFilter_loop seen1 rest in
      ret (match sent with Some g => g :: dlQ | None => dlQ end)
  end.

(** [seenFilter] as a stream transformer: the items sent on [dlQ], in
    order, for the items received from [filesC] until it is closed. *)
Definition seenFilter (filesC : list File) : M (list File) :=
  seenFilter_loop ∅ filesC.

(** The items of a sequence that carry a given ID, in order. *)
Definition with_ID (i : string) (l : list File) : list File :=
  filter (λ f, ID f = i) l.

Arguments with_ID : simpl never.

(** The skip lines of a log, in order. *)
Fixpoint skips (t : list event) : list string :=
  match t with
  | [] => []
  | EvLog (LogSkip name) :: rest => name :: skips rest
  | _ :: rest => skips rest
  end.

(** ** The coordinator and its goroutines *)

(** [sd.options]: the two options [fileDownloader] reads. *)
Record Options := mkOptions {
  dumpfiles : bool;
  workers : Z
}.

(** The goroutine [go func() { for i := 0; i < workers; i++ {...} }()]. *)
Inductive spawner_pc :=
| SpLoop (i : Z)       (* at the loop test with counter i *)
| SpGo (i : Z)         (* after wg.Add(1), before the go statement *)
| SpExit.

(** The goroutine [go func() { wg.Wait(); close(done) }()]. *)
Inductive sentinel_pc :=
| StWait               (* at wg.Wait() *)
| StClose              (* at close(done) *)
| StExit.

(** The goroutine inside [seenFilter]. *)
Inductive filter_pc :=
| FRecv                (* at the range receive from filesC *)
| FSend (f : File)     (* at dlQ <- f *)
| FClosed.             (* dlQ closed, goroutine gone *)

(** The goroutine [go func() { sd.worker(..., seenFilter(toDownload)); wg.Done() }()]. *)
Inductive worker_pc :=
| WStart               (* before the call of seenFilter *)
| WRange               (* at the range receive from dlQ *)
| WDone                (* loop left, at wg.Done() *)
| WExit.

(** One worker goroutine with the filter goroutine, the [seen] map and the
    channel [dlQ] that its own call of [seenFilter] made. [w_got] records
    the items the worker has taken from [dlQ]. *)
Record Worker := mkWorker {
  w_pc : worker_pc;
  w_filter : filter_pc;
  w_seen : gmap string bool;
  w_got : list File
}.

(** A run of the pipeline. [p_toDownload] holds what the caller has still
    to send on [toDownload]; the caller closes the channel after the last
    item. *)
Record Pool := mkPool {
  p_toDownload : list File;
  p_wg : Z;                          (* the WaitGroup counter *)
  p_spawner : option spawner_pc;     (* None: goroutine never started *)
  p_sentinel : option sentinel_pc;
  p_done : bool;                     (* done is closed *)
  p_workers : list Worker;           (* in the order of the go statements *)
  p_world : World
}.

(** The steps a scheduler can choose from. *)
Inductive action :=
| SpawnerAdd               (* i < workers holds; wg.Add(1) *)
| SpawnerGo                (* go func() {...}(); i++ *)
| SpawnerExit              (* i < workers fails *)
| WorkerStart (k : nat)    (* worker k calls seenFilter(toDownload) *)
| FilterRecv (k : nat)     (* filter k receives from toDownload, or sees it closed *)
| Handoff (k : nat)        (* filter k sends on dlQ, worker k receives and runs the loop body *)
| WorkerDrained (k : nat)  (* worker k finds dlQ closed *)
| WorkerWgDone (k : nat)   (* worker k calls wg.Done() *)
| SentinelWait             (* wg.Wait() returns *)
| SentinelClose.           (* close(done) *)

Section Coordinator.

Context (env : Env) (opts : Options) (dir : string).

Definition set_worker (k : nat) (wk : Worker) (p : Pool) : Pool :=
  {| p_toDownload := p_toDownload p; p_wg := p_wg p; p_spawner := p_spawner p;
     p_sentinel := p_sentinel p; p_done := p_done p;
     p_workers := <[k := wk]> (p_workers p); p_world := p_world p |}.

(** One step of one goroutine; [None] when that step is not enabled. *)
Definition exec (a : action) (p : Pool) : option Pool :=
  match a with
  | SpawnerAdd =>
      match p_spawner p with
      | Some (SpLoop i) =>
          if bool_decide (i < workers opts) then
            Some {| p_toDownload := p_toDownload p; p_wg := p_wg p + 1;
                    p_spawner := Some (SpGo i); p_sentinel := p_sentinel p;
                    p_done := p_done p; p_workers := p_workers p;
                    p_world := p_world p |}
          else None
      | _ => None
      end
  | SpawnerGo =>
      match p_spawner p with
      | Some (SpGo i) =>
          Some {| p_toDownload := p_toDownload p; p_wg := p_wg p;
                  p_spawner := Some (SpLoop (i + 1)); p_sentinel := p_sentinel p;
                  p_done := p_done p;
                  p_workers := p_workers p ++ [mkWorker WStart FRecv ∅ []];
                  p_world := p_world p |}
      | _ => None
      end
  | SpawnerExit =>
      match p_spawner p with
      | Some (SpLoop i) =>
          if bool_decide (i < workers opts) then None
          else
            Some {| p_toDownload := p_toDownload p; p_wg := p_wg p;
                    p_spawner := Some SpExit; p_sentinel := p_sentinel p;
                    p_done := p_done p; p_workers := p_workers p;
                    p_world := p_world p |}
      | _ => None
      end
  | WorkerStart k =>
      match p_workers p !! k with
      | Some (mkWorker WStart _ _ got) =>
          (* dlQ := make(chan); go func() { seen := make(map) ... }() *)
          Some (set_worker k (mkWorker WRange FRecv ∅ got) p)
      | _ => None
      end
  | FilterRecv k =>
      match p_workers p !! k with
      | Some (mkWorker WStart _ _ _) => None
      | Some (mkWorker pc FRecv seen got) =>
          match p_toDownload p with
          | f :: rest =>
              let '((seen1, sent), w1) := seenFilter_body seen f (p_world p) in
              let next := match sent with Some g => FSend g | None => FRecv end in
              Some {| p_toDownload := rest; p_wg := p_wg p;
                      p_spawner := p_spawner p; p_sentinel := p_sentinel p;
                      p_done := p_done p;
                      p_workers := <[k := mkWorker pc next seen1 got]> (p_workers p);
                      p_world := w1 |}
          | [] => Some (set_worker k (mkWorker pc FClosed seen got) p)
          end
      | _ => None
      end
  | Handoff k =>
      match p_workers p !! k with
      | Some (mkWorker WRange (FSend f) seen got) =>
          let '(_, w1) := worker_body env dir f (p_world p) in
          Some {| p_toDownload := p_toDownload p; p_wg := p_wg p;
                  p_spawner := p_spawner p; p_sentinel := p_sentinel p;
                  p_done := p_done p;
                  p_workers := <[k := mkWorker WRange FRecv seen (got ++ [f])]> (p_workers p);
                  p_world := w1 |}
      | _ => None
      end
  | WorkerDrained k =>
      match p_workers p !! k with
      | Some (mkWorker WRange FClosed seen got) =>
          Some (set_worker k (mkWorker WDone FClosed seen got) p)
      | _ => None
      end
  | WorkerWgDone k =>
      match p_workers p !! k with
      | Some (mkWorker WDone fpc seen got) =>
          Some {| p_toDownload := p_toDownload p; p_wg := p_wg p - 1;
                  p_spawner := p_spawner p; p_sentinel := p_sentinel p;
                  p_done := p_done p;
                  p_workers := <[k := mkWorker WExit fpc seen got]> (p_workers p);
                  p_world := p_world p |}
      | _ => None
      end
  | SentinelWait =>
      match p_sentinel p with
      | Some StWait =>
          if bool_decide (p_wg p = 0) then
            Some {| p_toDownload := p_toDownload p; p_wg := p_wg p;
                    p_spawner := p_spawner p; p_sentinel := Some StClose;
                    p_done := p_done p; p_workers := p_workers p;
                    p_world := p_world p |}
          else None
      | _ => None
      end
  | SentinelClose =>
      match p_sentinel p with
      | Some StClose =>
          Some {| p_toDownload := p_toDownload p; p_wg := p_wg p;
                  p_spawner := p_spawner p; p_sentinel := Some StExit;
                  p_done := true; p_workers := p_workers p;
                  p_world := p_world p |}
      | _ => None
      end
  end.

(** A schedule run from a state. *)
Fixpoint run (sched : list action) (p : Pool) : option Pool :=
  match sched with
  | [] => Some p
  | a :: rest =>
      match exec a p with
      | Some p1 => run rest p1
      | None => None
      end
  end.

(** The state in which [fileDownloader] returns without having started a
    goroutine. *)
Definition no_goroutines (done : bool) (toDownload : list File) (w : World) : Pool :=
  {| p_toDownload := toDownload; p_wg := 0; p_spawner := None;
     p_sentinel := None; p_done := done; p_workers := []; p_world := w |}.

(** The state in which it returns after its two go statements. *)
Definition launched (toDownload : list File) (w : World) : Pool :=
  {| p_toDownload := toDownload; p_wg := 0; p_spawner := Some (SpLoop 0);
     p_sentinel := Some StWait; p_done := false; p_workers := [];
     p_world := w |}.

(** [fileDownloader]: the pipeline state behind the returned [done]
    channel, and the returned error. *)
Definition fileDownloader (toDownload : list File) (w : World)
  : Pool * option error :=
  if negb (dumpfiles opts) then
    (no_goroutines true toDownload w, None)        (* close(done); return done, nil *)
  else
    let '(r, w1) := os_Mkdir env dir w in
    match r with
    | Some err =>
        if negb (os_IsExist err) then
          (no_goroutines false toDownload w1, Some err)  (* return done, err *)
        else (launched toDownload w1, None)
    | None => (launched toDownload w1, None)
    end.

End Coordinator.

(** A worker goroutine that has not returned. *)
Definition running (wk : Worker) : bool :=
  match w_pc wk with
  | WExit => false
  | _ => true
  end.

(** The paths of the [os.Create] calls of a trace, in order. *)
Fixpoint creates (t : list event) : list string :=
  match t with
  | [] => []
  | EvCreate path :: rest => path :: creates rest
  | _ :: rest => creates rest
  end.

(** The length of the regular file at a path, if there is one. *)
Definition file_length (w : World) (path : string) : option Z :=
  match fs w !! path with
  | Some (RegFile content) => Some (Z.of_nat (length content))
  | _ => None
  end.

(** ** Sample inputs *)

Definition join_slash (d n : string) : string := (d ++ "/" ++ n)%string.

Definition three_bytes : list Byte.byte := [Byte.x61; Byte.x62; Byte.x63].

(** Nothing fails; every URL serves three bytes. *)
Definition env_ok : Env :=
  mkEnv join_slash (λ _, None) (λ _, None) (λ _, (three_bytes, None)).

(** The connection breaks after one byte. *)
Definition env_reset : Env :=
  mkEnv join_slash (λ _, None) (λ _, None)
        (λ _, ([Byte.x61], Some (ClientError "connection reset"))).

(** The operating system refuses to create anything. *)
Definition env_denied : Env :=
  mkEnv join_slash (λ _, Some EACCES) (λ _, Some EACCES) (λ _, (three_bytes, None)).

Definition file_a : File := mkFile "F1" "a.txt" 10 "https://files.example/F1".
Definition file_b : File := mkFile "F2" "b.png" 3 "https://files.example/F2".
Definition file_c : File := mkFile "F3" "c.pdf" 3 "https://files.example/F3".
Definition file_d : File := mkFile "F4" "d.txt" 3 "https://files.example/F4".

(** [file_a] shared again under another name: same ID. *)
Definition file_a_again : File := mkFile "F1" "copy.txt" 10 "https://files.example/F1".

Definition w_empty : World := mkWorld ∅ 0 [].
Definition w_out : World := mkWorld {["out" := Dir]} 0 [].

(** M1 with two attachments and one reply carrying one; M2 with one. *)
Definition two_messages : list Message :=
  [ mkMessage (Some [file_a; file_b]) [mkMessage (Some [file_c]) []];
    mkMessage (Some [file_d]) [] ].

(** Two workers and the same attachment sent twice. The scheduler starts
    both workers, lets the filter of worker 0 take the first item and the
    filter of worker 1 the second, then lets both hand over. *)
Definition opts_two : Options := mkOptions true 2.

Definition sched_split : list action :=
  [ SpawnerAdd; SpawnerGo; SpawnerAdd; SpawnerGo; SpawnerExit;
    WorkerStart 0; WorkerStart 1;
    FilterRecv 0; FilterRecv 1;
    Handoff 0; Handoff 1 ].

(** One worker. The scheduler runs the sentinel goroutine before the
    spawner goroutine has called [wg.Add]. *)
Definition opts_one : Options := mkOptions true 1.

Definition sched_early_done : list action :=
  [ SentinelWait; SentinelClose;
    SpawnerAdd; SpawnerGo; SpawnerExit;
    WorkerStart 0; FilterRecv 0 ].

(** The rest of that run. *)
Definition sched_after_done : list action :=
  [ Handoff 0; FilterRecv 0; WorkerDrained 0; WorkerWgDone 0 ].

(** What a state shows of its workers: program counter, filter state and
    the items received. *)
Definition worker_view (wk : Worker) : worker_pc * filter_pc * list File :=
  (w_pc wk, w_filter wk, w_got wk).

(** What one worker's own filter guarantees: the items the worker has
    received carry distinct IDs, all of them recorded in its [seen] map,
    and an item waiting on [dlQ] is recorded but not yet received. *)
Definition worker_inv (wk : Worker) : Prop :=
  NoDup (ID <$> w_got wk)
  ∧ (∀ g, g ∈ w_got wk → is_Some (w_seen wk !! ID g))
  ∧ match w_filter wk with
    | FSend f => is_Some (w_seen wk !! ID f) ∧ ID f ∉ ID <$> w_got wk
    | _ => True
    end
  ∧ (w_pc wk = WStart → w_got wk = []).

Definition pool_inv (p : Pool) : Prop := Forall worker_inv (p_workers p).

(** Bookkeeping for runs: how many worker goroutines have not returned,
    and a bound on the steps a state has left. *)
Definition sum_over (weight : Worker → nat) (l : list Worker) : nat :=
  foldr (λ wk acc, (weight wk + acc)%nat) 0%nat l.

Definition live (wk : Worker) : nat := if running wk then 1%nat else 0%nat.

Definition worker_steps (wk : Worker) : nat :=
  (match w_pc wk with WStart => 4 | WRange => 2 | WDone => 1 | WExit => 0 end
   + match w_filter wk with FRecv => 1 | FSend _ => 2 | FClosed => 0 end)%nat.

Definition spawner_steps (workers : Z) (s : option spawner_pc) : nat :=
  match s with
  | Some (SpLoop i) => (8 * Z.to_nat (workers - i) + 1)%nat
  | Some (SpGo i) => (8 * Z.to_nat (workers - i - 1) + 7)%nat
  | _ => 0%nat
  end.

Definition sentinel_steps (s : option sentinel_pc) : nat :=
  match s with
  | Some StWait => 2%nat
  | Some StClose => 1%nat
  | _ => 0%nat
  end.

Definition steps_left (workers : Z) (p : Pool) : nat :=
  (spawner_steps workers (p_spawner p) + sentinel_steps (p_sentinel p)
   + sum_over worker_steps (p_workers p) + 2 * length (p_toDownload p))%nat.

(** The WaitGroup counter counts the workers that have not returned, plus
    the one announced by [wg.Add] whose go statement is still to come; the
    sentinel returns only after closing [done]. *)
Definition counter_inv (p : Pool) : Prop :=
  p_wg p = Z.of_nat (sum_over live (p_workers p))
           + match p_spawner p with Some (SpGo _) => 1 | _ => 0 end
  ∧ is_Some (p_spawner p)
  ∧ is_Some (p_sentinel p)
  ∧ (p_sentinel p = Some StExit → p_done p = true).

(** The steps that name worker [k], and the steps that name none. *)
Definition worker_actions (k : nat) : list action :=
  [WorkerStart k; FilterRecv k; Handoff k; WorkerDrained k; WorkerWgDone k].

Definition all_actions (n : nat) : list action :=
  [SpawnerAdd; SpawnerGo; SpawnerExit; SentinelWait; SentinelClose]
  ++ concat (map worker_actions (seq 0 n)).

(** The first enabled step among the given ones, if there is one. *)
Fixpoint first_enabled_in (env : Env) (opts : Options) (dir : string)
    (l : list action) (p : Pool) : option (action * Pool) :=
  match l with
  | [] => None
  | a :: rest =>
      match exec env opts dir a p with
      | Some p1 => Some (a, p1)
      | None => first_enabled_in env opts dir rest p
      end
  end.

Definition first_enabled (env : Env) (opts : Options) (dir : string) (p : Pool)
  : option (action * Pool) :=
  first_enabled_in env opts dir (all_actions (length (p_workers p))) p.

(** Downloading switched off, and a pool of no workers. *)
Definition opts_off : Options := mkOptions false 4.
Definition opts_zero : Options := mkOptions true 0.

(** How far the spawner has come: at the loop test with counter [i] it has
    started [i] workers, and it never starts more than [workers]. *)
Definition size_inv (workers : Z) (p : Pool) : Prop :=
  match p_spawner p with
  | Some (SpLoop i) =>
      0 ≤ i ∧ i ≤ Z.max 0 workers ∧ Z.of_nat (length (p_workers p)) = i
  | Some (SpGo i) =>
      0 ≤ i ∧ i < workers ∧ Z.of_nat (length (p_workers p)) = i
  | Some SpExit => Z.of_nat (length (p_workers p)) = Z.max 0 workers
  | None => length (p_workers p) = 0%nat
  end.

(** The items a worker holds: those it has received and the one its
    filter is about to send. *)
Definition held (wk : Worker) : nat :=
  (length (w_got wk)
   + match w_filter wk with FSend _ => 1 | _ => 0 end)%nat.

Definition received (wk : Worker) : nat := length (w_got wk).

(** How the program counters of a worker and of its filter go together. *)
Definition phase_inv (toDownload : list File) (wk : Worker) : Prop :=
  (w_filter wk = FClosed → toDownload = [])
  ∧ (w_pc wk = WDone ∨ w_pc wk = WExit → w_filter wk = FClosed)
  ∧ (w_pc wk = WStart → w_filter wk = FRecv ∧ w_got wk = []).

(** No item gets lost: of the [n] items the caller sends, each is still
    to be sent, held by a worker, or logged as skipped; and every item a
    worker received has had its [os.Create] call. [s0] and [c0] count the
    skip lines and create calls the trace had before the run. *)
Definition conserve_inv (n s0 c0 : nat) (p : Pool) : Prop :=
  (length (p_toDownload p) + sum_over held (p_workers p)
   + length (skips (trace (p_world p))) = n + s0)%nat
  ∧ (length (creates (trace (p_world p)))
     = c0 + sum_over received (p_workers p))%nat
  ∧ Forall (phase_inv (p_toDownload p)) (p_workers p).

(** A pool of no workers runs to its end in three steps. *)
Definition sched_no_workers : list action :=
  [SpawnerExit; SentinelWait; SentinelClose].

(** One worker takes [file_a], skips its second occurrence, and the run
    ends. *)
Definition sched_complete : list action :=
  [ SpawnerAdd; SpawnerGo; SpawnerExit; WorkerStart 0;
    FilterRecv 0; Handoff 0; FilterRecv 0; FilterRecv 0;
    WorkerDrained 0; WorkerWgDone 0; SentinelWait; SentinelClose ].

(** The directory with an earlier, complete copy of [file_a] in it. *)
Definition w_downloaded : World :=
  mkWorld {[ "out" := Dir;
             "out/F1-a.txt" := RegFile [Byte.x6f; Byte.x6c; Byte.x64; Byte.x31] ]}
          0 [].

(** The byte ['-'] (0x2D). *)
Definition hyphen : Ascii.ascii := Ascii.ascii_of_nat 45.

(** Whether a string holds the byte ['-']. *)
Fixpoint has_hyphen (s : string) : bool :=
  match s with
  | EmptyString => false
  | String c rest => if Ascii.eqb c hyphen then true else has_hyphen rest
  end.

(** [file_a] as another message carries it: other size and URL. *)
Definition file_a_mirror : File := mkFile "F1" "a.txt" 12 "https://mirror.example/F1".

(** Two attachments with different IDs and the same file name. *)
Definition file_x1 : File := mkFile "F1-a" "b.txt" 1 "https://files.example/x1".
Definition file_x2 : File := mkFile "F1" "a-b.txt" 1 "https://files.example/x2".

(** A message without what lies below its replies: the replies keep their
    attachments and lose their own replies. *)
Definition prune_reply (r : Message) : Message :=
  {| Files := Files r; ThreadReplies := [] |}.

Definition prune (m : Message) : Message :=
  {| Files := Files m; ThreadReplies := map prune_reply (ThreadReplies m) |}.

(** A message whose reply has a reply of its own that carries [file_d]. *)
Definition nested_message : Message :=
  mkMessage (Some [file_a])
    [mkMessage (Some [file_b]) [mkMessage (Some [file_d]) []]].

(** ** main.go: trunc *)

(** [trunc(s string, n uint) string]: [len(s)] counts bytes, [s[:n]] keeps
    the first [n] of them. *)
Definition trunc (s : string) (n : N) : string :=
  if (N.of_nat (String.length s) <=? n)%N then s
  else String.substring 0 (N.to_nat n) s.

(** ** interactive.go: fileSelector and surveyEmojis *)

(** The user at the terminal: the answers still to come to the text
    prompts ([survey.AskOne] on an input: the text, or an error such as an
    interrupt) and to the yes/no prompts ([ui.Confirm]: the boolean and the
    error it returns), and the lines printed with [fmt.Println]. *)
Record Console := mkConsole {
  typed : list (string + error);
  confirms : list (bool * option error);
  printed : list string
}.

(** The fields of [params] that [surveyEmojis] writes. *)
Record params := mkParams {
  emoji_Enabled : bool;
  emoji_FailOnError : bool;
  output_Base : string
}.

(** Whether [os.Stat(name)] succeeds: never on the empty name. *)
Definition os_Stat_ok (files : gmap string node) (name : string) : bool :=
  if decide (name = "") then false else bool_decide (is_Some (files !! name)).

(** [if output == "" { output = "-" }] *)
Definition dash_if_empty (output : string) : string :=
  if decide (output = "") then "-" else output.

(** [fileSelector]: one turn of its loop per text answer. [None] when the
    answers run out, that is while the program waits for the user. *)
Fixpoint fileSelector_loop (files : gmap string node)
    (answers : list (string + error)) (yesno : list (bool * option error))
  : option ((string * option error)
            * (list (string + error) * list (bool * option error))) :=
  match answers with
  | [] => None
  | inr err :: answers1 => Some (("", Some err), (answers1, yesno))
  | inl output :: answers1 =>
      if negb (os_Stat_ok files output) then
        Some ((dash_if_empty output, None), (answers1, yesno))       (* break *)
      else
        match yesno with
        | [] => None
        | (_, Some err) :: yesno1 => Some (("", Some err), (answers1, yesno1))
        | (overwrite, None) :: yesno1 =>
            if overwrite then
              Some ((dash_if_empty output, None), (answers1, yesno1)) (* break *)
            else fileSelector_loop files answers1 yesno1
        end
  end.

Definition fileSelector (files : gmap string node) (c : Console)
  : option ((string * option error) * Console) :=
  match fileSelector_loop files (typed c) (confirms c) with
  | Some (r, (answers1, yesno1)) => Some (r, mkConsole answers1 yesno1 (printed c))
  | None => None
  end.

(** The loop of [surveyEmojis]; every turn uses up a text answer, and
    [fuel] bounds the turns. *)
Fixpoint surveyEmojis_loop (fuel : nat) (files : gmap string node) (c : Console)
  : option ((string * option error) * Console) :=
  match fuel with
  | O => None
  | S fuel1 =>
      match fileSelector files c with
      | None => None
      | Some ((base, Some err), c1) => Some ((base, Some err), c1)
      | Some ((base, None), c1) =>
          if bool_decide (base ≠ "-" ∧ base ≠ "") then Some ((base, None), c1)
          else
            surveyEmojis_loop fuel1 files
              (mkConsole (typed c1) (confirms c1) (printed c1 ++ ["invalid filename"]))
      end
  end.

(** [surveyEmojis]: the params as the function leaves them, the error it
    returns, and the console afterwards. *)
Definition surveyEmojis (files : gmap string node) (p : params) (c : Console)
  : option ((params * option error) * Console) :=
  let p1 := mkParams true (emoji_FailOnError p) (output_Base p) in
  match surveyEmojis_loop (S (length (typed c))) files c with
  | None => None
  | Some ((_, Some err), c1) => Some ((p1, Some err), c1)
  | Some ((base, None), c1) =>
      match confirms c1 with
      | [] => None
      | (fail, err) :: yesno1 =>
          Some ((mkParams true fail base, err),
                mkConsole (typed c1) yesno1 (printed c1))
      end
  end.

(** A user who first names a file that exists, declines to overwrite it,
    then gives an empty answer, then a new name, and agrees to fail on
    errors. *)
Definition console_sample : Console :=
  mkConsole [inl "out/F1-a.txt"; inl ""; inl "emojis.zip"]
            [(false, None); (true, None)] [].

(** ** interactive.go: questConversationList *)

(** [strings.Split(s, "-")]. *)
Fixpoint split_hyphen (s : string) : list string :=
  match s with
  | EmptyString => [EmptyString]
  | String c rest =>
      if Ascii.eqb c hyphen then EmptyString :: split_hyphen rest
      else
        match split_hyphen rest with
        | part :: parts => String c part :: parts
        | [] => [String c EmptyString]
        end
  end.

(** The two values of [structures.EntityList] that [questConversationList]
    builds: all conversations, or a date filter. *)
Record EntityList (Time : Type) := mkEntityList {
  AllConversations : bool;
  DateFilter : option (Time * Time)
}.

Arguments mkEntityList {Time}.
Arguments AllConversations {Time}.
Arguments DateFilter {Time}.

Section Quest.

(** Library functions the loop calls: [strings.ToLower],
    [strings.TrimSpace], [time.Parse] with the layout "01/02/06" (none when
    it returns an error) and [Time.After]. *)
Context {Time : Type}.
Context (ToLower TrimSpace : string → string).
Context (Parse : string → option Time).
Context (After : Time → Time → bool).

(** [questConversationList]: one turn of the loop per answer to
    [ui.String]; the lines it prints are added to [out]. [None] while the
    program waits for the user. *)
Fixpoint questConversationList
    (answers : list (string + error)) (out : list string)
  : option ((option (EntityList Time) * option error)
            * (list (string + error) * list string)) :=
  match answers with
  | [] => None
  | inr err :: rest => Some ((None, Some err), (rest, out))
  | inl inputStr :: rest =>
      if bool_decide (inputStr = "" ∨ ToLower inputStr = "all") then
        Some ((Some (mkEntityList true None), None), (rest, out))
      else if has_hyphen inputStr then
        match split_hyphen inputStr with
        | [first; second] =>
            match Parse (TrimSpace first), Parse (TrimSpace second) with
            | Some startDate, Some endDate =>
                if After startDate endDate then
                  questConversationList rest
                    (out ++ [("Invalid date range: " ++ inputStr)%string])
                else
                  Some ((Some (mkEntityList false (Some (startDate, endDate))), None),
                        (rest, out))
            | _, _ =>
                questConversationList rest
                  (out ++ [("Invalid date range: " ++ inputStr)%string])
            end
        | _ =>
            questConversationList rest
              (out ++ [("Invalid date range format: " ++ inputStr)%string])
        end
      else
        questConversationList rest
          (out ++ ["Invalid input. Please enter a valid date range or 'ALL'."])
  end.

End Quest.

(** Stand-ins to run the loop on: ASCII lower case, no trimming, and a
    date read as the number of its bytes. *)
Definition lower_byte (c : Ascii.ascii) : Ascii.ascii :=
  let n := Ascii.nat_of_ascii c in
  if bool_decide (65 ≤ n ≤ 90)%nat then Ascii.ascii_of_nat (n + 32) else c.

Fixpoint lower_ascii (s : string) : string :=
  match s with
  | EmptyString => EmptyString
  | String c rest => String (lower_byte c) (lower_ascii rest)
  end.

Definition parse_length (s : string) : option nat :=
  if decide (s = "") then None else Some (String.length s).

Definition after_nat (a b : nat) : bool := bool_decide (b < a)%nat.

(** A user who gives a conversation ID, then an ISO date range, then a
    range that ends before it starts, and then a good range. *)
Definition answers_sample : list (string + error) :=
  [inl "C01234567"; inl "2023-01-01 - 2023-02-01"; inl "12/31/23-1/1/23";
   inl "1/1/23-12/31/23"; inl "later"].

(** ** A pool of one worker *)

(** What a filter with the given [seen] map sends for the given items
    (the world only receives its log lines). *)
Definition sent_by (seen : gmap string bool) (filesC : list File) : list File :=
  fst (seenFilter_loop seen filesC w_empty).

(** The item a filter is about to send, if any. *)
Definition pending (wk : Worker) : list File :=
  match w_filter wk with
  | FSend f => [f]
  | _ => []
  end.

(** With a single worker, what it has received, what its filter is about
    to send and what the filter will send for the items still to come make
    up what one [seenFilter] stage sends for the whole input. *)
Definition single_inv (toDownload : list File) (p : Pool) : Prop :=
  match p_workers p with
  | [] => p_toDownload p = toDownload
  | [wk] =>
      match w_pc wk with
      | WStart => p_toDownload p = toDownload ∧ w_got wk = []
      | _ =>
          w_got wk ++ pending wk ++ sent_by (w_seen wk) (p_toDownload p)
          = sent_by ∅ toDownload
      end
  | _ => True
  end.

(** The target path taken by a regular file. *)
Definition w_file : World := mkWorld {["out" := RegFile three_bytes]} 0 [].

(** The spawner starts worker 0, which begins to run. *)
Definition sched_start_worker : list action :=
  [SpawnerAdd; SpawnerGo; WorkerStart 0].

(** A user who names a file that exists and agrees to overwrite it. *)
Definition console_overwrite : Console :=
  mkConsole [inl "out/F1-a.txt"; inl "unused"] [(true, None)] [].

(** A user who just presses return. *)
Definition console_empty : Console := mkConsole [inl ""] [(true, None)] [].

(** A directory that holds a file named "-". *)
Definition files_dash : gmap string node := {["-" := RegFile three_bytes]}.

(** * Properties *)

(** ** Extraction *)

(** The example of the specification: M1 with two attachments and one
    reply with one attachment, then M2 with one attachment. *)
Example filesFromMessages_two_messages :
  filesFromMessages two_messages = [file_a; file_b; file_c; file_d].
Proof. reflexivity. Qed.

Lemma append_slice_app files s :
  append_slice files s = files ++ attachments_of s.
Proof. destruct s as [fs|]; simpl; [done | by rewrite app_nil_r]. Qed.

Lemma append_replies_app replies : ∀ files,
  append_replies files replies =
  files ++ concat (map (λ r, attachments_of (Files r)) replies).
Proof.
  induction replies as [|r rest IH]; intros files; simpl.
  - by rewrite app_nil_r.
  - rewrite IH, append_slice_app. by rewrite <- app_assoc.
Qed.

Lemma filesFromMessages_loop_app m : ∀ files,
  filesFromMessages_loop files m = files ++ extraction_order m.
Proof.
  induction m as [|mi rest IH]; intros files; simpl.
  - unfold extraction_order. simpl. by rewrite app_nil_r.
  - rewrite IH, append_replies_app. unfold extraction_order. simpl.
    unfold message_attachments at 2.
    destruct (Files mi) as [fs|]; simpl; by rewrite <- ?app_assoc.
Qed.

Lemma message_attachments_fill_missing mi :
  message_attachments (fill_missing mi) = message_attachments mi.
Proof.
  unfold message_attachments. simpl. f_equal. f_equal.
  rewrite map_map. by apply map_ext.
Qed.

(** C7: [filesFromMessages] yields, for each message in order, its direct
    attachments in order and then the attachments of its thread replies in
    order; it is a total function of the message list alone (no world, no
    error result); replacing every missing (nil) attachment list by an
    empty one does not change the result; [ChannelFiles] pairs that
    sequence with the channel ID. *)
Theorem filesFromMessages_extraction_order (m : list Message) :
  filesFromMessages m = extraction_order m
  ∧ filesFromMessages (map fill_missing m) = filesFromMessages m
  ∧ ∀ ch : Channel,
      ChannelFiles ch =
      {| cf_Files := extraction_order (ch_Messages ch); cf_ChannelID := ch_ID ch |}.
Proof.
  assert (Hspec : ∀ l, filesFromMessages l = extraction_order l).
  { intros l. unfold filesFromMessages. by rewrite filesFromMessages_loop_app. }
  split; [apply Hspec|]. split.
  - rewrite !Hspec. unfold extraction_order. f_equal.
    rewrite map_map. apply map_ext. apply message_attachments_fill_missing.
  - intros ch. unfold ChannelFiles. by rewrite Hspec.
Qed.

(** ** The download operation *)

Section SaveFileTo_facts.

Context (env : Env) (dir : string) (f : File) (w : World).

Let path := Join env dir (filename f).
Let url := URLPrivateDownload f.

(** [os.Create] either fails and leaves the files alone, or leaves an
    empty regular file at the path. *)
Lemma os_Create_cases p :
  let '(r, w1) := os_Create env p w in
  trace w1 = trace w ++ [EvCreate p] ∧ waits w1 = waits w ∧
  match r with
  | Some _ => fs w1 = fs w
  | None => fs w1 = <[p := RegFile []]> (fs w)
  end.
Proof.
  unfold os_Create, bind, emit, set_node, ret. simpl.
  destruct (fs w !! p) as [[|c]|]; simpl; try done;
    destruct (create_fault env p); simpl; done.
Qed.

(** The three ways a call of [SaveFileTo] can go. *)
Lemma SaveFileTo_cases :
  let '((n, err), w') := SaveFileTo env dir f w in
  match fst (os_Create env path w) with
  | Some e =>
      n = 0 ∧ err = Some e ∧ fs w' = fs w ∧ waits w' = waits w ∧
      trace w' = trace w ++ [EvCreate path]
  | None =>
      fs w' = <[path := RegFile (fst (remote env url))]> (fs w) ∧
      match snd (remote env url) with
      | Some e =>
          n = 0 ∧ err = Some (WithStack e) ∧ waits w' = waits w ∧
          trace w' = trace w ++ [EvCreate path; EvGetFile url path; EvClose path]
      | None =>
          n = Size f ∧ err = None ∧ waits w' = S (waits w) ∧
          trace w' =
          trace w ++ [EvCreate path; EvGetFile url path; EvWait; EvClose path]
      end
  end.
Proof.
  unfold SaveFileTo. fold path url. unfold bind at 1.
  pose proof (os_Create_cases path) as Hc.
  destruct (os_Create env path w) as [[e|] w1]; simpl in *.
  - destruct Hc as (Ht & Hw & Hf). by rewrite Hf, Hw, Ht.
  - destruct Hc as (Ht & Hw & Hf).
    unfold GetFile, limiter_Wait, file_Close, bind, emit, set_node, ret. simpl.
    destruct (remote env url) as [bytes [e|]] eqn:Hr; simpl;
      rewrite Hf, lookup_insert_eq; simpl;
      rewrite insert_insert_eq, Hw, Ht, <- !app_assoc; simpl; done.
Qed.

End SaveFileTo_facts.

(** [EvWait] is not among the events of an explicit list without it. *)
Ltac wait_not_among :=
  let Hin := fresh "Hin" in
  intros Hin;
  repeat (apply elem_of_cons in Hin as [Hin|Hin]; [discriminate Hin|]);
  by apply elem_of_nil in Hin.

(** The course of [SaveFileTo], by what [os.Create] and the transfer do.
    [os.Create] is called first, on the directory joined with
    [<ID>-<Name>]. If it fails nothing else is called and the result is 0
    and its error. Otherwise [GetFile] writes into that file; if it fails
    the file is closed, no permit is taken, and the result is 0 and the
    wrapped error; if it succeeds [l.Wait] is called after it, one permit
    is taken, the file is closed, and the result is the attachment's
    declared [Size]. *)
Theorem SaveFileTo_create_transfer_wait (env : Env) (dir : string) (f : File) (w : World) :
  let path := Join env dir (ID f ++ "-" ++ Name f)%string in
  let url := URLPrivateDownload f in
  let '((n, err), w') := SaveFileTo env dir f w in
  match fst (os_Create env path w) with
  | Some e =>
      (n, err) = (0, Some e)
      ∧ trace w' = trace w ++ [EvCreate path]
      ∧ waits w' = waits w
      ∧ fs w' = fs w
  | None =>
      fs w' !! path = Some (RegFile (fst (remote env url)))
      ∧ match snd (remote env url) with
        | Some e =>
            (n, err) = (0, Some (WithStack e))
            ∧ trace w' = trace w ++ [EvCreate path; EvGetFile url path; EvClose path]
            ∧ waits w' = waits w
        | None =>
            (n, err) = (Size f, None)
            ∧ trace w'
              = trace w ++ [EvCreate path; EvGetFile url path; EvWait; EvClose path]
            ∧ waits w' = S (waits w)
        end
  end.
Proof.
  intros path url.
  pose proof (SaveFileTo_cases env dir f w) as H.
  change (Join env dir (filename f)) with path in H.
  change (URLPrivateDownload f) with url in H.
  destruct (SaveFileTo env dir f w) as [[n err] w'].
  destruct (fst (os_Create env path w)) as [e|].
  - destruct H as (-> & -> & Hfs & Hw & Ht). auto.
  - destruct H as (Hfs & H). split; [by rewrite Hfs, lookup_insert_eq|].
    destruct (snd (remote env url)) as [e|].
    + destruct H as (-> & -> & Hw & Ht). auto.
    + destruct H as (-> & -> & Hw & Ht). auto.
Qed.

(** C4: the code does not return the number of bytes written. The server
    streams three bytes for an attachment whose declared size is 10:
    [SaveFileTo] succeeds, the file it created is three bytes long, and the
    result is 10, the [Size] field; the worker then logs
    "file F1-a.txt saved: 10 bytes written". *)
Theorem SaveFileTo_result_is_not_bytes_written :
  let '((n, err), w') := SaveFileTo env_ok "out" file_a w_out in
  err = None
  ∧ file_length w_out "out/F1-a.txt" = None
  ∧ file_length w' "out/F1-a.txt" = Some 3
  ∧ n = 10
  ∧ Some n ≠ file_length w' "out/F1-a.txt"
  ∧ last (trace (snd (worker_body env_ok "out" file_a w_out)))
    = Some (EvLog (LogSaved "F1-a.txt" 10))
  ∧ file_length (snd (worker_body env_ok "out" file_a w_out)) "out/F1-a.txt" = Some 3.
Proof. vm_compute. repeat split; congruence. Qed.

(** C8: when the file cannot be created, or the transfer fails,
    [SaveFileTo] returns 0 and an error, takes no permit and never calls
    [l.Wait]. *)
Theorem SaveFileTo_failure_takes_no_permit
    (env : Env) (dir : string) (f : File) (w : World) :
  fst (os_Create env (Join env dir (filename f)) w) ≠ None
  ∨ snd (remote env (URLPrivateDownload f)) ≠ None →
  ∃ e t,
    fst (SaveFileTo env dir f w) = (0, Some e)
    ∧ waits (snd (SaveFileTo env dir f w)) = waits w
    ∧ trace (snd (SaveFileTo env dir f w)) = trace w ++ t
    ∧ EvWait ∉ t.
Proof.
  intros Hfail.
  pose proof (SaveFileTo_cases env dir f w) as H.
  destruct (SaveFileTo env dir f w) as [[n err] w']. simpl.
  destruct (fst (os_Create env (Join env dir (filename f)) w)) as [e|].
  - destruct H as (-> & -> & _ & Hw & Ht).
    exists e, [EvCreate (Join env dir (filename f))].
    repeat split; try done. wait_not_among.
  - destruct H as (_ & H).
    destruct (snd (remote env (URLPrivateDownload f))) as [e|].
    + destruct H as (-> & -> & Hw & Ht).
      eexists _, _. repeat split; [done | exact Ht |]. wait_not_among.
    + destruct Hfail as [Hc | Hr]; congruence.
Qed.

Lemma SaveFileTo_failure_takes_no_permit_witness :
  (fst (os_Create env_denied (Join env_denied "out" (filename file_a)) w_out) ≠ None
   ∨ snd (remote env_denied (URLPrivateDownload file_a)) ≠ None)
  ∧ (fst (os_Create env_reset (Join env_reset "out" (filename file_a)) w_out) ≠ None
     ∨ snd (remote env_reset (URLPrivateDownload file_a)) ≠ None)
  ∧ (∃ e t,
      fst (SaveFileTo env_denied "out" file_a w_out) = (0, Some e)
      ∧ waits (snd (SaveFileTo env_denied "out" file_a w_out)) = waits w_out
      ∧ trace (snd (SaveFileTo env_denied "out" file_a w_out)) = trace w_out ++ t
      ∧ EvWait ∉ t)
  ∧ (∃ e t,
      fst (SaveFileTo env_reset "out" file_a w_out) = (0, Some e)
      ∧ waits (snd (SaveFileTo env_reset "out" file_a w_out)) = waits w_out
      ∧ trace (snd (SaveFileTo env_reset "out" file_a w_out)) = trace w_out ++ t
      ∧ EvWait ∉ t).
Proof.
  assert (H1 : fst (os_Create env_denied (Join env_denied "out" (filename file_a)) w_out) ≠ None
               ∨ snd (remote env_denied (URLPrivateDownload file_a)) ≠ None).
  { left. vm_compute. discriminate. }
  assert (H2 : fst (os_Create env_reset (Join env_reset "out" (filename file_a)) w_out) ≠ None
               ∨ snd (remote env_reset (URLPrivateDownload file_a)) ≠ None).
  { right. vm_compute. discriminate. }
  split; [exact H1|]. split; [exact H2|]. split.
  - exact (SaveFileTo_failure_takes_no_permit env_denied "out" file_a w_out H1).
  - exact (SaveFileTo_failure_takes_no_permit env_reset "out" file_a w_out H2).
Defined.

(** C9: when the file was created and the transfer then fails,
    [SaveFileTo] returns the error and the file it created stays in the
    file system, holding whatever bytes arrived. *)
Theorem SaveFileTo_failed_transfer_leaves_file
    (env : Env) (dir : string) (f : File) (w : World) (e : error) :
  fst (os_Create env (Join env dir (ID f ++ "-" ++ Name f)%string) w) = None →
  snd (remote env (URLPrivateDownload f)) = Some e →
  fst (SaveFileTo env dir f w) = (0, Some (WithStack e))
  ∧ fs (snd (SaveFileTo env dir f w)) !! Join env dir (ID f ++ "-" ++ Name f)%string
    = Some (RegFile (fst (remote env (URLPrivateDownload f))))
  ∧ EvCreate (Join env dir (ID f ++ "-" ++ Name f)%string)
    ∈ trace (snd (SaveFileTo env dir f w)).
Proof.
  intros Hc Hr.
  pose proof (SaveFileTo_cases env dir f w) as H.
  change (ID f ++ "-" ++ Name f)%string with (filename f) in *.
  destruct (SaveFileTo env dir f w) as [[n err] w']. simpl.
  rewrite Hc, Hr in H. destruct H as (Hfs & -> & -> & _ & Ht).
  split; [done|]. split.
  - by rewrite Hfs, lookup_insert_eq.
  - rewrite Ht, elem_of_app. right. apply list_elem_of_here.
Qed.

Lemma SaveFileTo_failed_transfer_leaves_file_witness :
  fs w_out !! "out/F1-a.txt" = None
  ∧ fst (SaveFileTo env_reset "out" file_a w_out)
    = (0, Some (WithStack (ClientError "connection reset")))
  ∧ fs (snd (SaveFileTo env_reset "out" file_a w_out)) !! "out/F1-a.txt"
    = Some (RegFile [Byte.x61])
  ∧ EvCreate "out/F1-a.txt" ∈ trace (snd (SaveFileTo env_reset "out" file_a w_out)).
Proof.
  split; [reflexivity|].
  apply (SaveFileTo_failed_transfer_leaves_file env_reset "out" file_a w_out
           (ClientError "connection reset")); reflexivity.
Defined.

(** ** The deduplication stage *)

Lemma with_ID_cons i f l :
  with_ID i (f :: l) = if decide (ID f = i) then f :: with_ID i l else with_ID i l.
Proof. unfold with_ID. rewrite filter_cons. done. Qed.

(** The loop of [seenFilter], one item at a time. *)
Lemma seenFilter_loop_cons seen f rest w :
  seenFilter_loop seen (f :: rest) w =
  match seen !! ID f with
  | Some _ => seenFilter_loop seen rest (snd (log_Printf (LogSkip (filename f)) w))
  | None =>
      (f :: fst (seenFilter_loop (<[ID f := true]> seen) rest w),
       snd (seenFilter_loop (<[ID f := true]> seen) rest w))
  end.
Proof.
  simpl. unfold bind, seenFilter_body.
  destruct (seen !! ID f); simpl; unfold bind, ret; simpl.
  - by destruct (seenFilter_loop seen rest _).
  - by destruct (seenFilter_loop _ rest w).
Qed.

(** What [seenFilter_loop] sends and what it drops, ID by ID, from any
    state of the [seen] map; it only logs. *)
Lemma seenFilter_loop_spec (filesC : list File) : ∀ (seen : gmap string bool) (w : World),
  ∃ dropped : list File,
    trace (snd (seenFilter_loop seen filesC w))
    = trace w ++ map (λ f, EvLog (LogSkip (filename f))) dropped
    ∧ fs (snd (seenFilter_loop seen filesC w)) = fs w
    ∧ waits (snd (seenFilter_loop seen filesC w)) = waits w
    ∧ ∀ i : string,
        with_ID i (fst (seenFilter_loop seen filesC w))
        = (if seen !! i is Some _ then [] else take 1 (with_ID i filesC))
        ∧ with_ID i dropped
          = (if seen !! i is Some _ then with_ID i filesC else tail (with_ID i filesC)).
Proof.
  induction filesC as [|f rest IH]; intros seen w.
  - exists []. simpl. rewrite app_nil_r. repeat split; by destruct (seen !! i).
  - rewrite seenFilter_loop_cons.
    destruct (seen !! ID f) as [b|] eqn:Hseen.
    + destruct (IH seen (snd (log_Printf (LogSkip (filename f)) w)))
        as (dropped & Ht & Hfs & Hw & Hid).
      exists (f :: dropped). rewrite Ht, Hfs, Hw.
      split; [simpl; by rewrite <- app_assoc|]. do 2 (split; [done|]).
      intros i. split.
      * rewrite with_ID_cons. destruct (Hid i) as [-> _].
        destruct (decide (ID f = i)) as [<-|]; [by rewrite Hseen | done].
      * rewrite !with_ID_cons. destruct (Hid i) as [_ ->].
        destruct (decide (ID f = i)) as [<-|]; [by rewrite Hseen | done].
    + destruct (IH (<[ID f := true]> seen) w) as (dropped & Ht & Hfs & Hw & Hid).
      exists dropped. simpl. repeat split; try done.
      * rewrite !with_ID_cons. destruct (Hid i) as [-> _].
        destruct (decide (ID f = i)) as [<-|Hne].
        -- by rewrite lookup_insert_eq, Hseen.
        -- by rewrite lookup_insert_ne.
      * rewrite with_ID_cons. destruct (Hid i) as [_ ->].
        destruct (decide (ID f = i)) as [<-|Hne].
        -- by rewrite lookup_insert_eq, Hseen.
        -- by rewrite lookup_insert_ne.
Qed.

(** C2: for an ID that occurs in the input of a [seenFilter] stage, once
    or several times, the stage sends exactly one item with that ID, the
    first occurrence; the later occurrences are dropped, each with one skip
    line in the log; the stage does nothing but log, and has no error
    result. *)
Theorem seenFilter_first_occurrence
    (filesC : list File) (w : World) (i : string) (first : File) (later : list File) :
  with_ID i filesC = first :: later →
  with_ID i (fst (seenFilter filesC w)) = [first]
  ∧ ∃ dropped : list File,
      with_ID i dropped = later
      ∧ trace (snd (seenFilter filesC w))
        = trace w ++ map (λ f, EvLog (LogSkip (filename f))) dropped
      ∧ skips (trace (snd (seenFilter filesC w)))
        = skips (trace w) ++ map filename dropped
      ∧ fs (snd (seenFilter filesC w)) = fs w
      ∧ waits (snd (seenFilter filesC w)) = waits w.
Proof.
  intros Hocc. unfold seenFilter.
  destruct (seenFilter_loop_spec filesC ∅ w) as (dropped & Ht & Hfs & Hw & Hid).
  destruct (Hid i) as [Hout Hdrop]. rewrite lookup_empty in Hout, Hdrop.
  rewrite Hocc in Hout, Hdrop. split; [exact Hout|].
  exists dropped. repeat split; try done.
  rewrite Ht. clear. generalize (trace w) as t.
  induction t as [|[| | | | |[]] t IH]; simpl; rewrite ?IH; try done.
  induction dropped as [|d ds IHd]; simpl; by rewrite ?IHd.
Qed.

Lemma seenFilter_first_occurrence_witness :
  with_ID "F1" [file_a; file_b; file_a_again; file_a] = file_a :: [file_a_again; file_a]
  ∧ with_ID "F1" (fst (seenFilter [file_a; file_b; file_a_again; file_a] w_empty)) = [file_a]
  ∧ ∃ dropped : list File,
      with_ID "F1" dropped = [file_a_again; file_a]
      ∧ trace (snd (seenFilter [file_a; file_b; file_a_again; file_a] w_empty))
        = trace w_empty ++ map (λ f, EvLog (LogSkip (filename f))) dropped
      ∧ skips (trace (snd (seenFilter [file_a; file_b; file_a_again; file_a] w_empty)))
        = skips (trace w_empty) ++ map filename dropped
      ∧ fs (snd (seenFilter [file_a; file_b; file_a_again; file_a] w_empty)) = fs w_empty
      ∧ waits (snd (seenFilter [file_a; file_b; file_a_again; file_a] w_empty))
        = waits w_empty.
Proof.
  split; [reflexivity|].
  apply (seenFilter_first_occurrence [file_a; file_b; file_a_again; file_a] w_empty
           "F1" file_a [file_a_again; file_a]).
  reflexivity.
Defined.

(** ** The worker loop *)

Lemma creates_app t1 t2 : creates (t1 ++ t2) = creates t1 ++ creates t2.
Proof.
  induction t1 as [|e t1 IH]; simpl; [done|].
  destruct e; simpl; by rewrite ?IH.
Qed.

(** The loop body: the "saving" line, [SaveFileTo], the error line if it
    failed, the "saved" line. *)
Lemma worker_body_spec env dir f w :
  let w0 := snd (log_Printf (LogSaving (filename f) (Size f)) w) in
  let n := fst (fst (SaveFileTo env dir f w0)) in
  let err := snd (fst (SaveFileTo env dir f w0)) in
  let w1 := snd (SaveFileTo env dir f w0) in
  let w2 := snd (worker_body env dir f w) in
  fs w2 = fs w1 ∧ waits w2 = waits w1
  ∧ trace w2 =
    trace w1
    ++ match err with
       | Some e => [EvLog (LogErrorSaving (filename f) e)]
       | None => []
       end
    ++ [EvLog (LogSaved (filename f) n)].
Proof.
  unfold worker_body, bind. simpl.
  destruct (SaveFileTo env dir f _) as [[n [e|]] w1]; simpl.
  - by rewrite <- app_assoc.
  - done.
Qed.

(** One [os.Create] call per item. *)
Lemma worker_body_creates env dir f w :
  creates (trace (snd (worker_body env dir f w)))
  = creates (trace w) ++ [Join env dir (filename f)].
Proof.
  destruct (worker_body_spec env dir f w) as (_ & _ & ->).
  pose proof (SaveFileTo_cases env dir f
                (snd (log_Printf (LogSaving (filename f) (Size f)) w))) as H.
  destruct (SaveFileTo env dir f _) as [[n err] w1]. simpl in *.
  destruct (fst (os_Create env _ _)) as [e|].
  - destruct H as (_ & -> & _ & _ & ->). rewrite !creates_app. simpl.
    by rewrite !app_nil_r.
  - destruct H as (_ & H). destruct (snd (remote env _)) as [e|].
    + destruct H as (_ & -> & _ & ->). rewrite !creates_app. simpl.
      by rewrite !app_nil_r.
    + destruct H as (_ & -> & _ & ->). rewrite !creates_app. simpl.
      by rewrite !app_nil_r.
Qed.

Lemma worker_app env dir before after w :
  worker env dir (before ++ after) w
  = worker env dir after (snd (worker env dir before w)).
Proof.
  revert w. induction before as [|f before IH]; intros w; simpl; [done|].
  unfold bind. destruct (worker_body env dir f w) as [[] w1]. apply IH.
Qed.

Lemma worker_cons env dir f rest w :
  worker env dir (f :: rest) w = worker env dir rest (snd (worker_body env dir f w)).
Proof. simpl. unfold bind. by destruct (worker_body env dir f w) as [[] w1]. Qed.

(** The worker attempts every item of its queue, in order. *)
Lemma worker_creates env dir filesC : ∀ w,
  creates (trace (snd (worker env dir filesC w)))
  = creates (trace w) ++ map (λ f, Join env dir (filename f)) filesC.
Proof.
  induction filesC as [|f rest IH]; intros w.
  - simpl. by rewrite app_nil_r.
  - rewrite worker_cons, IH, worker_body_creates. by rewrite <- app_assoc.
Qed.

(** The worker only ever adds to its log. *)
Lemma worker_trace_grows env dir filesC : ∀ w,
  ∃ t, trace (snd (worker env dir filesC w)) = trace w ++ t.
Proof.
  induction filesC as [|f rest IH]; intros w.
  - exists []. simpl. by rewrite app_nil_r.
  - rewrite worker_cons. destruct (IH (snd (worker_body env dir f w))) as [t ->].
    destruct (worker_body_spec env dir f w) as (_ & _ & ->).
    pose proof (SaveFileTo_cases env dir f
                  (snd (log_Printf (LogSaving (filename f) (Size f)) w))) as H.
    destruct (SaveFileTo env dir f _) as [[n err] w1]. simpl in *.
    assert (∃ t1, trace w1 = trace w ++ t1) as [t1 ->].
    { destruct (fst (os_Create env _ _)).
      - destruct H as (_ & _ & _ & _ & ->). rewrite <- app_assoc. eauto.
      - destruct H as (_ & H). destruct (snd (remote env _)).
        + destruct H as (_ & _ & _ & ->). rewrite <- app_assoc. eauto.
        + destruct H as (_ & _ & _ & ->). rewrite <- app_assoc. eauto. }
    rewrite <- !app_assoc. eauto.
Qed.

(** The error returned by [fileDownloader] is decided by [os.Mkdir]. *)
Lemma fileDownloader_error env opts dir toDownload w :
  snd (fileDownloader env opts dir toDownload w)
  = if dumpfiles opts then
      match fst (os_Mkdir env dir w) with
      | Some e => if os_IsExist e then None else Some e
      | None => None
      end
    else None.
Proof.
  unfold fileDownloader. destruct (dumpfiles opts); simpl; [|done].
  destruct (os_Mkdir env dir w) as [[e|] w1]; simpl; [|done].
  by destruct (os_IsExist e).
Qed.

(** C5: when [SaveFileTo] fails on an item of a worker's queue, the worker
    logs the error under the item's file name and goes on: every item
    after it is still attempted. In the pool, the step that hands the item
    to the worker leaves that worker in its loop and touches neither the
    other goroutines nor [done]. The error [fileDownloader] returns is the
    one of [os.Mkdir], whatever the items are. *)
Theorem worker_absorbs_item_failure
    (env : Env) (dir : string) (before : list File) (f : File) (after : list File)
    (w : World) (e : error) :
  let w0 := snd (worker env dir before w) in
  snd (fst (SaveFileTo env dir f
              (snd (log_Printf (LogSaving (filename f) (Size f)) w0)))) = Some e →
  EvLog (LogErrorSaving (filename f) e)
    ∈ trace (snd (worker env dir (before ++ f :: after) w))
  ∧ worker env dir (before ++ f :: after) w
    = worker env dir after (snd (worker_body env dir f w0))
  ∧ creates (trace (snd (worker env dir (before ++ f :: after) w)))
    = creates (trace w)
      ++ map (λ g, Join env dir (filename g)) (before ++ f :: after)
  ∧ (∀ (opts : Options) (p : Pool) (k : nat) seen got,
       p_workers p !! k = Some (mkWorker WRange (FSend f) seen got) →
       ∃ p', exec env opts dir (Handoff k) p = Some p'
             ∧ p_workers p' = <[k := mkWorker WRange FRecv seen (got ++ [f])]> (p_workers p)
             ∧ p_world p' = snd (worker_body env dir f (p_world p))
             ∧ p_done p' = p_done p ∧ p_wg p' = p_wg p
             ∧ p_spawner p' = p_spawner p ∧ p_sentinel p' = p_sentinel p
             ∧ p_toDownload p' = p_toDownload p)
  ∧ (∀ (opts : Options) (toDownload toDownload' : list File) (w' : World),
       snd (fileDownloader env opts dir toDownload w')
       = snd (fileDownloader env opts dir toDownload' w')
       ∧ ∀ err, snd (fileDownloader env opts dir toDownload w') = Some err →
                fst (os_Mkdir env dir w') = Some err ∧ os_IsExist err = false).
Proof.
  intros w0 Hfail. split; [|split; [|split; [|split]]].
  - rewrite worker_app, worker_cons. fold w0.
    destruct (worker_trace_grows env dir after (snd (worker_body env dir f w0)))
      as [t ->].
    destruct (worker_body_spec env dir f w0) as (_ & _ & ->).
    rewrite Hfail. rewrite !elem_of_app. left. right. left. apply list_elem_of_here.
  - by rewrite worker_app, worker_cons.
  - apply worker_creates.
  - intros opts p k seen got Hk. unfold exec. rewrite Hk.
    destruct (worker_body env dir f (p_world p)) as [[] w1]. simpl.
    eexists. repeat split.
  - intros opts toDownload toDownload' w'. rewrite !fileDownloader_error.
    split; [done|]. intros err.
    destruct (dumpfiles opts); [|done].
    destruct (fst (os_Mkdir env dir w')) as [e'|]; [|done].
    destruct (os_IsExist e') eqn:He; [done|]. intros [= ->]. done.
Qed.

Lemma worker_absorbs_item_failure_witness :
  snd (fst (SaveFileTo env_reset "out" file_a
              (snd (log_Printf (LogSaving (filename file_a) (Size file_a))
                      (snd (worker env_reset "out" [] w_out))))))
  = Some (WithStack (ClientError "connection reset"))
  ∧ EvLog (LogErrorSaving "F1-a.txt" (WithStack (ClientError "connection reset")))
      ∈ trace (snd (worker env_reset "out" ([] ++ file_a :: [file_b]) w_out))
  ∧ creates (trace (snd (worker env_reset "out" ([] ++ file_a :: [file_b]) w_out)))
    = creates (trace w_out) ++ ["out/F1-a.txt"; "out/F2-b.png"].
Proof.
  assert (H : snd (fst (SaveFileTo env_reset "out" file_a
                          (snd (log_Printf (LogSaving (filename file_a) (Size file_a))
                                  (snd (worker env_reset "out" [] w_out))))))
              = Some (WithStack (ClientError "connection reset"))) by reflexivity.
  split; [exact H|].
  destruct (worker_absorbs_item_failure env_reset "out" [] file_a [file_b] w_out
              (WithStack (ClientError "connection reset")) H) as (H1 & _ & H3 & _).
  split; [exact H1 | exact H3].
Defined.

(** ** The coordinator *)

(** C1 fails on the code: with two workers every worker calls
    [seenFilter(toDownload)] itself, so there are two [seen] maps. On the
    input [file_a; file_a] the run [sched_split] hands [file_a] to worker 0
    and to worker 1, and [os.Create] is called twice on the same path. *)
Theorem fileDownloader_hands_duplicate_to_two_workers :
  let '(p0, err) := fileDownloader env_ok opts_two "out" [file_a; file_a] w_empty in
  err = None
  ∧ ∃ p, run env_ok opts_two "out" sched_split p0 = Some p
         ∧ map w_got (p_workers p) = [[file_a]; [file_a]]
         ∧ creates (trace (p_world p)) = ["out/F1-a.txt"; "out/F1-a.txt"]
         ∧ skips (trace (p_world p)) = [].
Proof.
  vm_compute. split; [reflexivity|]. eexists. split; [reflexivity|].
  repeat split.
Qed.

(** C3 fails on the code: [wg.Add(1)] is called by the spawner goroutine,
    not before the sentinel goroutine starts. With one worker and one item
    the run [sched_early_done] closes [done] while the counter is still 0;
    afterwards worker 0 is in its loop with [file_a] waiting on [dlQ] and
    nothing has been downloaded; the download happens after [done] was
    closed. *)
Theorem fileDownloader_done_before_workers_exit :
  let '(p0, err) := fileDownloader env_ok opts_one "out" [file_a] w_empty in
  err = None
  ∧ ∃ p, run env_ok opts_one "out" sched_early_done p0 = Some p
         ∧ p_done p = true
         ∧ map worker_view (p_workers p) = [(WRange, FSend file_a, [])]
         ∧ map running (p_workers p) = [true]
         ∧ creates (trace (p_world p)) = []
         ∧ ∃ p', run env_ok opts_one "out" sched_after_done p = Some p'
                 ∧ map worker_view (p_workers p') = [(WExit, FClosed, [file_a])]
                 ∧ creates (trace (p_world p')) = ["out/F1-a.txt"].
Proof.
  vm_compute. split; [reflexivity|]. eexists. split; [reflexivity|].
  repeat split. eexists. repeat split.
Qed.

(** Without goroutines no step is enabled. *)
Lemma exec_no_goroutines env opts dir a done toDownload w :
  exec env opts dir a (no_goroutines done toDownload w) = None.
Proof. by destruct a. Qed.

Lemma run_no_goroutines env opts dir sched done toDownload w p' :
  run env opts dir sched (no_goroutines done toDownload w) = Some p' →
  sched = [] ∧ p' = no_goroutines done toDownload w.
Proof.
  destruct sched as [|a rest]; simpl.
  - by intros [= <-].
  - by rewrite exec_no_goroutines.
Qed.

Lemma os_Mkdir_cases env dir w :
  let r := fst (os_Mkdir env dir w) in
  let w1 := snd (os_Mkdir env dir w) in
  trace w1 = trace w ++ [EvMkdir dir] ∧ waits w1 = waits w
  ∧ match fs w !! dir with
    | Some _ => r = Some (PathError "mkdir" dir EEXIST) ∧ fs w1 = fs w
    | None =>
        match mkdir_fault env dir with
        | Some e => r = Some (PathError "mkdir" dir e) ∧ fs w1 = fs w
        | None => r = None ∧ fs w1 = <[dir := Dir]> (fs w)
        end
    end.
Proof.
  unfold os_Mkdir, bind, emit, set_node, ret. simpl.
  destruct (fs w !! dir); simpl; [done|].
  destruct (mkdir_fault env dir); simpl; done.
Qed.

Lemma seenFilter_body_fs seen f w :
  fs (snd (seenFilter_body seen f w)) = fs w.
Proof. unfold seenFilter_body. by destruct (seen !! ID f). Qed.

(** [os.Create] refuses a path that is a directory. *)
Lemma os_Create_directory env path w :
  fs w !! path = Some Dir → fst (os_Create env path w) ≠ None.
Proof.
  intros Hdir. unfold os_Create, bind, emit, ret. simpl. by rewrite Hdir.
Qed.

(** Nothing the pool does removes or replaces a directory. *)
Lemma worker_body_keeps_directory env dir f w x :
  fs w !! x = Some Dir → fs (snd (worker_body env dir f w)) !! x = Some Dir.
Proof.
  intros Hx. destruct (worker_body_spec env dir f w) as (-> & _ & _).
  pose proof (SaveFileTo_cases env dir f
                (snd (log_Printf (LogSaving (filename f) (Size f)) w))) as H.
  pose proof (os_Create_directory env (Join env dir (filename f))
                (snd (log_Printf (LogSaving (filename f) (Size f)) w))) as Hc.
  destruct (SaveFileTo env dir f _) as [[n err] w1]. simpl in *.
  destruct (fst (os_Create env _ _)).
  - destruct H as (_ & _ & -> & _). done.
  - destruct H as (-> & _).
    destruct (decide (Join env dir (filename f) = x)) as [Heq|Hne].
    + subst x. by destruct (Hc Hx).
    + by rewrite lookup_insert_ne.
Qed.

Lemma exec_keeps_directory env opts dir a p p' x :
  exec env opts dir a p = Some p' →
  fs (p_world p) !! x = Some Dir → fs (p_world p') !! x = Some Dir.
Proof.
  intros Hex Hx. destruct a; simpl in Hex.
  - destruct (p_spawner p) as [[i|i|]|]; try done.
    destruct (bool_decide _); [|done]. by injection Hex as <-.
  - destruct (p_spawner p) as [[i|i|]|]; try done. by injection Hex as <-.
  - destruct (p_spawner p) as [[i|i|]|]; try done.
    destruct (bool_decide _); [done|]. by injection Hex as <-.
  - destruct (p_workers p !! k) as [[[] ? ? ?]|]; try done. by injection Hex as <-.
  - destruct (p_workers p !! k) as [[pc [] seen got]|]; try done;
      destruct pc; try done;
      (destruct (p_toDownload p) as [|f rest];
       [by injection Hex as <- |
        pose proof (seenFilter_body_fs seen f (p_world p)) as Hfs;
        destruct (seenFilter_body seen f (p_world p)) as [[seen1 sent] w1];
        injection Hex as <-; simpl in *; by rewrite Hfs]).
  - destruct (p_workers p !! k) as [[[] [] seen got]|]; try done.
    pose proof (worker_body_keeps_directory env dir f (p_world p) x Hx) as Hk.
    destruct (worker_body env dir f (p_world p)) as [[] w1].
    by injection Hex as <-.
  - destruct (p_workers p !! k) as [[[] [] seen got]|]; try done.
    by injection Hex as <-.
  - destruct (p_workers p !! k) as [[[] ? seen got]|]; try done.
    by injection Hex as <-.
  - destruct (p_sentinel p) as [[]|]; try done.
    destruct (bool_decide _); [|done]. by injection Hex as <-.
  - destruct (p_sentinel p) as [[]|]; try done. by injection Hex as <-.
Qed.

Lemma run_keeps_directory env opts dir sched : ∀ p p' x,
  run env opts dir sched p = Some p' →
  fs (p_world p) !! x = Some Dir → fs (p_world p') !! x = Some Dir.
Proof.
  induction sched as [|a rest IH]; intros p p' x; simpl.
  - by intros [= <-].
  - destruct (exec env opts dir a p) as [p1|] eqn:Hex; [|done].
    intros Hrun Hx. eapply IH; [exact Hrun|]. by eapply exec_keeps_directory.
Qed.

(** C6, as the code has it: with downloading enabled, [fileDownloader]
    calls [os.Mkdir] before anything else and returns before any worker
    exists. When the directory is already there, or is not there and the
    operating system lets it be made, there is no error, the goroutines
    are launched, the directory exists at that moment and in every state
    of every run (so whenever a worker exists), and a later call on the
    same directory returns no error either. When the path is free and
    [os.Mkdir] fails with an error for which [os.IsExist] does not hold,
    that error is returned, nothing is created and no worker is ever
    launched. *)
Theorem fileDownloader_ensures_directory
    (env : Env) (opts : Options) (dir : string) (toDownload : list File) (w : World) :
  dumpfiles opts = true →
  let p := fst (fileDownloader env opts dir toDownload w) in
  let err := snd (fileDownloader env opts dir toDownload w) in
  trace (p_world p) = trace w ++ [EvMkdir dir]
  ∧ p_workers p = []
  ∧ (fs w !! dir = Some Dir ∨ (fs w !! dir = None ∧ mkdir_fault env dir = None) →
     err = None
     ∧ p = launched toDownload (p_world p)
     ∧ ∀ sched p',
         run env opts dir sched p = Some p' →
         fs (p_world p') !! dir = Some Dir
         ∧ ∀ opts' toDownload',
             snd (fileDownloader env opts' dir toDownload' (p_world p')) = None)
  ∧ (∀ e,
       fs w !! dir = None →
       mkdir_fault env dir = Some e →
       os_IsExist (PathError "mkdir" dir e) = false →
       err = Some (PathError "mkdir" dir e)
       ∧ p = no_goroutines false toDownload (p_world p)
       ∧ fs (p_world p) = fs w
       ∧ ∀ sched p',
           run env opts dir sched p = Some p' → sched = [] ∧ p_workers p' = []).
Proof.
  intros Hon p err.
  destruct (os_Mkdir_cases env dir w) as (Ht & _ & Hcases).
  assert (Hp : (p, err)
               = match fst (os_Mkdir env dir w) with
                 | Some e => if os_IsExist e
                             then (launched toDownload (snd (os_Mkdir env dir w)), None)
                             else (no_goroutines false toDownload
                                     (snd (os_Mkdir env dir w)), Some e)
                 | None => (launched toDownload (snd (os_Mkdir env dir w)), None)
                 end).
  { subst p err. unfold fileDownloader. rewrite Hon. simpl.
    destruct (os_Mkdir env dir w) as [[e|] w1]; simpl; [|done].
    by destruct (os_IsExist e). }
  assert (Hw1 : p_world p = snd (os_Mkdir env dir w) ∧ p_workers p = []).
  { destruct (fst (os_Mkdir env dir w)) as [e|]; [destruct (os_IsExist e)|];
      by injection Hp as -> ->. }
  destruct Hw1 as [Hw1 Hwk].
  split; [by rewrite Hw1|]. split; [exact Hwk|]. split.
  - intros Hgood.
    assert (Hdir : err = None ∧ p = launched toDownload (p_world p)
                   ∧ fs (p_world p) !! dir = Some Dir).
    { destruct Hgood as [Hthere|[Hfree Hnofault]].
      - rewrite Hthere in Hcases. destruct Hcases as [Hr Hfs].
        rewrite Hr in Hp. simpl in Hp. injection Hp as Hp ->.
        rewrite Hp at 1. simpl. rewrite Hp in Hw1. simpl in Hw1.
        split; [done|]. split; [by rewrite Hp; simpl|].
        rewrite Hp. simpl. by rewrite Hfs.
      - rewrite Hfree, Hnofault in Hcases. destruct Hcases as [Hr Hfs].
        rewrite Hr in Hp. injection Hp as Hp ->.
        split; [done|]. split; [by rewrite Hp; simpl|].
        rewrite Hp. simpl. by rewrite Hfs, lookup_insert_eq. }
    destruct Hdir as (Herr & Hlaunched & Hdir).
    split; [done|]. split; [done|].
    intros sched p' Hrun.
    pose proof (run_keeps_directory _ _ _ _ _ _ _ Hrun Hdir) as Hdir'.
    split; [done|]. intros opts' toDownload'.
    rewrite fileDownloader_error. destruct (dumpfiles opts'); [|done].
    destruct (os_Mkdir_cases env dir (p_world p')) as (_ & _ & Hc2).
    rewrite Hdir' in Hc2. destruct Hc2 as [-> _]. done.
  - intros e Hfree Hfault Hnot.
    rewrite Hfree, Hfault in Hcases. destruct Hcases as [Hr Hfs].
    rewrite Hr, Hnot in Hp. injection Hp as Hp ->.
    split; [done|]. split; [by rewrite Hp; simpl|].
    split; [by rewrite Hp; simpl|].
    intros sched p' Hrun. rewrite Hp in Hrun.
    apply run_no_goroutines in Hrun. by destruct Hrun as [-> ->].
Qed.

Lemma fileDownloader_ensures_directory_witness :
  dumpfiles opts_two = true
  ∧ fs w_empty !! "out" = None
  ∧ mkdir_fault env_ok "out" = None
  ∧ snd (fileDownloader env_ok opts_two "out" [file_a] w_empty) = None
  ∧ fs (p_world (fst (fileDownloader env_ok opts_two "out" [file_a] w_empty))) !! "out"
    = Some Dir
  ∧ fs w_out !! "out" = Some Dir
  ∧ snd (fileDownloader env_ok opts_two "out" [file_a] w_out) = None
  ∧ mkdir_fault env_denied "out" = Some EACCES
  ∧ snd (fileDownloader env_denied opts_two "out" [file_a] w_empty)
    = Some (PathError "mkdir" "out" EACCES)
  ∧ fs (p_world (fst (fileDownloader env_denied opts_two "out" [file_a] w_empty)))
    = fs w_empty.
Proof.
  split; [reflexivity|]. split; [reflexivity|]. split; [reflexivity|].
  destruct (fileDownloader_ensures_directory env_ok opts_two "out" [file_a] w_empty
              eq_refl) as (_ & _ & Hmade & _).
  destruct (Hmade (or_intror (conj eq_refl eq_refl))) as (Herr & _ & Hrun).
  split; [exact Herr|].
  split; [exact (proj1 (Hrun [] _ eq_refl))|].
  split; [reflexivity|].
  destruct (fileDownloader_ensures_directory env_ok opts_two "out" [file_a] w_out
              eq_refl) as (_ & _ & Hthere & _).
  split; [exact (proj1 (Hthere (or_introl eq_refl)))|].
  split; [reflexivity|].
  destruct (fileDownloader_ensures_directory env_denied opts_two "out" [file_a] w_empty
              eq_refl) as (_ & _ & _ & Hfail).
  destruct (Hfail EACCES eq_refl eq_refl eq_refl) as (Herr' & _ & Hfs & _).
  split; [exact Herr' | exact Hfs].
Defined.

(** C6 as stated fails: the target path is taken by a regular file.
    [os.Mkdir] reports that the path exists, [fileDownloader] returns no
    error and launches its goroutines, a worker starts to run, and there is
    no directory. *)
Lemma fileDownloader_accepts_regular_file :
  let '(p, err) := fileDownloader env_ok opts_one "out" [file_a] w_file in
  fs w_file !! "out" = Some (RegFile three_bytes)
  ∧ fst (os_Mkdir env_ok "out" w_file) = Some (PathError "mkdir" "out" EEXIST)
  ∧ err = None
  ∧ p_spawner p = Some (SpLoop 0)
  ∧ p_sentinel p = Some StWait
  ∧ fs (p_world p) !! "out" ≠ Some Dir
  ∧ ∃ p',
      run env_ok opts_one "out" sched_start_worker p = Some p'
      ∧ map running (p_workers p') = [true]
      ∧ fs (p_world p') !! "out" = Some (RegFile three_bytes).
Proof.
  vm_compute. repeat split; try congruence.
  eexists. repeat split.
Qed.

(** C10: when [os.Mkdir] fails with an error for which [os.IsExist] does
    not hold, [fileDownloader] returns that error together with a [done]
    channel that is open, and no goroutine exists that could close it: no
    step is enabled, so [done] stays open in every run. *)
Theorem fileDownloader_preflight_error_leaves_done_open
    (env : Env) (opts : Options) (dir : string) (toDownload : list File)
    (w : World) (err : error) :
  dumpfiles opts = true →
  fst (os_Mkdir env dir w) = Some err →
  os_IsExist err = false →
  snd (fileDownloader env opts dir toDownload w) = Some err
  ∧ p_done (fst (fileDownloader env opts dir toDownload w)) = false
  ∧ p_sentinel (fst (fileDownloader env opts dir toDownload w)) = None
  ∧ (∀ a, exec env opts dir a (fst (fileDownloader env opts dir toDownload w)) = None)
  ∧ ∀ sched p',
      run env opts dir sched (fst (fileDownloader env opts dir toDownload w)) = Some p' →
      p_done p' = false.
Proof.
  intros Hon Hmk Hexist.
  assert (Hfd : fileDownloader env opts dir toDownload w
                = (no_goroutines false toDownload (snd (os_Mkdir env dir w)), Some err)).
  { unfold fileDownloader. rewrite Hon. simpl.
    destruct (os_Mkdir env dir w) as [r w1]. simpl in *. subst r.
    by rewrite Hexist. }
  rewrite Hfd. simpl. repeat split.
  - intros a. apply exec_no_goroutines.
  - intros sched p' Hrun. apply run_no_goroutines in Hrun. by destruct Hrun as [_ ->].
Qed.

Lemma fileDownloader_preflight_error_leaves_done_open_witness :
  dumpfiles opts_one = true
  ∧ fst (os_Mkdir env_denied "out" w_empty) = Some (PathError "mkdir" "out" EACCES)
  ∧ os_IsExist (PathError "mkdir" "out" EACCES) = false
  ∧ snd (fileDownloader env_denied opts_one "out" [file_a] w_empty)
    = Some (PathError "mkdir" "out" EACCES)
  ∧ p_done (fst (fileDownloader env_denied opts_one "out" [file_a] w_empty)) = false.
Proof.
  split; [reflexivity|]. split; [reflexivity|]. split; [reflexivity|].
  destruct (fileDownloader_preflight_error_leaves_done_open env_denied opts_one "out"
              [file_a] w_empty (PathError "mkdir" "out" EACCES)
              eq_refl eq_refl eq_refl) as (H1 & H2 & _).
  split; [exact H1 | exact H2].
Defined.

(** ** Deduplication inside one worker *)

Lemma worker_inv_fresh : worker_inv (mkWorker WStart FRecv ∅ []).
Proof. split; [apply NoDup_nil_2|]. split; [by intros g ?%elem_of_nil|]. done. Qed.

Lemma exec_pool_inv env opts dir a p p' :
  exec env opts dir a p = Some p' → pool_inv p → pool_inv p'.
Proof.
  unfold pool_inv. intros Hex Hinv. destruct a; simpl in Hex.
  - destruct (p_spawner p) as [[i|i|]|]; try done.
    destruct (bool_decide _); [|done]. by injection Hex as <-.
  - destruct (p_spawner p) as [[i|i|]|]; try done. injection Hex as <-. simpl.
    apply Forall_app. split; [done|]. constructor; [apply worker_inv_fresh|constructor].
  - destruct (p_spawner p) as [[i|i|]|]; try done.
    destruct (bool_decide _); [done|]. by injection Hex as <-.
  - destruct (p_workers p !! k) as [[[] fpc seen got]|] eqn:Hk; try done.
    injection Hex as <-. simpl. apply Forall_insert; [done|].
    pose proof (Forall_lookup_1 _ _ _ _ Hinv Hk) as (_ & _ & _ & Hgot).
    simpl in Hgot. rewrite (Hgot eq_refl).
    split; [apply NoDup_nil_2|]. split; [by intros g ?%elem_of_nil|]. done.
  - destruct (p_workers p !! k) as [[pc fpc seen got]|] eqn:Hk; [|done].
    pose proof (Forall_lookup_1 _ _ _ _ Hinv Hk) as (Hnd & Hseen & _ & Hstart).
    simpl in *.
    assert (Hgo : match fpc with
                  | FRecv =>
                      match p_toDownload p with
                      | f :: rest =>
                          let '((seen1, sent), w1) := seenFilter_body seen f (p_world p) in
                          Some {| p_toDownload := rest; p_wg := p_wg p;
                                  p_spawner := p_spawner p; p_sentinel := p_sentinel p;
                                  p_done := p_done p;
                                  p_workers :=
                                    <[k := mkWorker pc
                                             match sent with Some g => FSend g | None => FRecv end
                                             seen1 got]> (p_workers p);
                                  p_world := w1 |}
                      | [] => Some (set_worker k (mkWorker pc FClosed seen got) p)
                      end
                  | _ => None
                  end = Some p' ∧ pc ≠ WStart).
    { destruct pc; try done; destruct fpc; done. }
    clear Hex. destruct Hgo as [Hex Hpc]. destruct fpc; try done.
    destruct (p_toDownload p) as [|f rest].
    + injection Hex as <-. simpl. apply Forall_insert; [done|]. repeat split; done.
    + unfold seenFilter_body in Hex.
      destruct (seen !! ID f) as [b|] eqn:Hf; simpl in Hex; injection Hex as <-; simpl.
      * apply Forall_insert; [done|]. repeat split; done.
      * apply Forall_insert; [done|]. repeat split; simpl; try done.
        -- intros g Hg. destruct (decide (ID f = ID g)) as [->|Hne].
           ++ rewrite lookup_insert_eq. eauto.
           ++ rewrite lookup_insert_ne; [auto|done].
        -- rewrite lookup_insert_eq. eauto.
        -- intros (g & Heq & Hg)%list_elem_of_fmap.
           destruct (Hseen g Hg) as [b Hb]. congruence.
  - destruct (p_workers p !! k) as [[[] [] seen got]|] eqn:Hk; try done.
    pose proof (Forall_lookup_1 _ _ _ _ Hinv Hk) as (Hnd & Hseen & [Hf Hnew] & _).
    simpl in *.
    destruct (worker_body env dir f (p_world p)) as [[] w1].
    injection Hex as <-. simpl. apply Forall_insert; [done|].
    repeat split; simpl; try done.
    + rewrite fmap_app. apply NoDup_app. repeat split; [done| |].
      * intros x Hx [->|[]%elem_of_nil]%elem_of_cons. done.
      * simpl. apply NoDup_singleton.
    + intros g [Hg|[->|[]%elem_of_nil]%elem_of_cons]%elem_of_app; auto.
  - destruct (p_workers p !! k) as [[[] [] seen got]|] eqn:Hk; try done.
    pose proof (Forall_lookup_1 _ _ _ _ Hinv Hk) as (Hnd & Hseen & _ & _).
    injection Hex as <-. simpl. apply Forall_insert; [done|]. repeat split; done.
  - destruct (p_workers p !! k) as [[[] fpc seen got]|] eqn:Hk; try done.
    pose proof (Forall_lookup_1 _ _ _ _ Hinv Hk) as (Hnd & Hseen & Hfl & _).
    injection Hex as <-. simpl. apply Forall_insert; [done|]. repeat split; done.
  - destruct (p_sentinel p) as [[]|]; try done.
    destruct (bool_decide _); [|done]. by injection Hex as <-.
  - destruct (p_sentinel p) as [[]|]; try done. by injection Hex as <-.
Qed.

Lemma run_pool_inv env opts dir sched : ∀ p p',
  run env opts dir sched p = Some p' → pool_inv p → pool_inv p'.
Proof.
  induction sched as [|a rest IH]; intros p p'; simpl.
  - by intros [= <-].
  - destruct (exec env opts dir a p) as [p1|] eqn:Hex; [|done].
    intros Hrun Hinv. eapply IH; [exact Hrun|]. by eapply exec_pool_inv.
Qed.

(** X3: in every run of the pipeline, the items one worker receives carry
    pairwise distinct IDs: each worker's own filter deduplicates that
    worker's stream (and only that). *)
Lemma fileDownloader_dedup_per_worker env opts dir toDownload w sched p k wk :
  run env opts dir sched (fst (fileDownloader env opts dir toDownload w)) = Some p →
  p_workers p !! k = Some wk →
  NoDup (ID <$> w_got wk).
Proof.
  intros Hrun Hk.
  assert (Hinv : pool_inv p).
  { eapply run_pool_inv; [exact Hrun|]. unfold fileDownloader, pool_inv.
    destruct (dumpfiles opts); simpl; [|constructor].
    destruct (os_Mkdir env dir w) as [[e|] w1]; [destruct (os_IsExist e)|];
      simpl; constructor. }
  by destruct (Forall_lookup_1 _ _ _ _ Hinv Hk) as (Hnd & _).
Qed.

(** ** Completion *)

Lemma sum_over_app weight l x :
  sum_over weight (l ++ [x]) = (sum_over weight l + weight x)%nat.
Proof. induction l as [|y l IH]; simpl; lia. Qed.

Lemma sum_over_insert weight (l : list Worker) k old new :
  l !! k = Some old →
  (sum_over weight (<[k := new]> l) + weight old
   = sum_over weight l + weight new)%nat.
Proof.
  revert k. induction l as [|y l IH]; intros [|k] Hk; simpl in *; try done.
  - injection Hk as ->. lia.
  - specialize (IH k Hk). lia.
Qed.

(** Relates the sum over the workers before and after worker [k] is
    replaced, with both sums as unknowns. *)
Ltac weigh weight Hk new :=
  let Hs := fresh "Hs" in
  pose proof (sum_over_insert weight _ _ _ new Hk) as Hs;
  simpl in *;
  match type of Hs with
  | (?a + ?x = ?b + ?y)%nat =>
      let va := fresh "before" in
      let vb := fresh "after" in
      remember a as va; remember b as vb;
      cbv [weight w_pc w_filter running live] in Hs
  end.

(** Every step uses up some of the steps a state has left. *)
Lemma exec_steps_left env opts dir a p p' :
  exec env opts dir a p = Some p' →
  (steps_left (workers opts) p' < steps_left (workers opts) p)%nat.
Proof.
  intros Hex. unfold steps_left. destruct a; simpl in Hex.
  - destruct (p_spawner p) as [[i|i|]|]; try done.
    destruct (bool_decide_reflect (i < workers opts)); [|done].
    injection Hex as <-. simpl. lia.
  - destruct (p_spawner p) as [[i|i|]|]; try done. injection Hex as <-. simpl.
    rewrite sum_over_app. unfold worker_steps at 2. simpl.
    replace (workers opts - (i + 1)) with (workers opts - i - 1) by lia. lia.
  - destruct (p_spawner p) as [[i|i|]|]; try done.
    destruct (bool_decide _); [done|]. injection Hex as <-. simpl. lia.
  - destruct (p_workers p !! k) as [[[] fpc seen got]|] eqn:Hk; try done.
    injection Hex as <-. simpl.
    weigh worker_steps Hk (mkWorker WRange FRecv ∅ got). destruct fpc; lia.
  - destruct (p_workers p !! k) as [[pc fpc seen got]|] eqn:Hk; [|done].
    destruct fpc; try (by destruct pc).
    destruct (p_toDownload p) as [|f rest] eqn:Hq.
    + assert (p' = set_worker k (mkWorker pc FClosed seen got) p) as ->.
      { destruct pc; try done; by injection Hex as <-. }
      simpl. rewrite Hq.
      weigh worker_steps Hk (mkWorker pc FClosed seen got). lia.
    + destruct (seenFilter_body seen f (p_world p)) as [[seen1 sent] w1].
      assert (p_toDownload p' = rest
              ∧ p_spawner p' = p_spawner p ∧ p_sentinel p' = p_sentinel p
              ∧ p_workers p'
                = <[k := mkWorker pc match sent with Some g => FSend g | None => FRecv end
                            seen1 got]> (p_workers p)) as (-> & -> & -> & ->).
      { destruct pc; try done; by injection Hex as <-. }
      weigh worker_steps Hk (mkWorker pc match sent with Some g => FSend g | None => FRecv end seen1 got). destruct sent; lia.
  - destruct (p_workers p !! k) as [[[] [] seen got]|] eqn:Hk; try done.
    destruct (worker_body env dir f (p_world p)) as [[] w1].
    injection Hex as <-. simpl.
    weigh worker_steps Hk (mkWorker WRange FRecv seen (got ++ [f])). lia.
  - destruct (p_workers p !! k) as [[[] [] seen got]|] eqn:Hk; try done.
    injection Hex as <-. simpl.
    weigh worker_steps Hk (mkWorker WDone FClosed seen got). lia.
  - destruct (p_workers p !! k) as [[[] fpc seen got]|] eqn:Hk; try done.
    injection Hex as <-. simpl.
    weigh worker_steps Hk (mkWorker WExit fpc seen got). lia.
  - destruct (p_sentinel p) as [[]|]; try done.
    destruct (bool_decide _); [|done]. injection Hex as <-. simpl. lia.
  - destruct (p_sentinel p) as [[]|]; try done. injection Hex as <-. simpl. lia.
Qed.

(** A run is no longer than the bound of its first state. *)
Lemma run_bounded env opts dir sched : ∀ p p',
  run env opts dir sched p = Some p' →
  (length sched + steps_left (workers opts) p' ≤ steps_left (workers opts) p)%nat.
Proof.
  induction sched as [|a rest IH]; intros p p'; simpl.
  - intros [= <-]. lia.
  - destruct (exec env opts dir a p) as [p1|] eqn:Hex; [|done].
    intros Hrun. specialize (IH _ _ Hrun).
    pose proof (exec_steps_left _ _ _ _ _ _ Hex). lia.
Qed.

(** The counter invariant holds along every run. *)
Lemma exec_counter_inv env opts dir a p p' :
  exec env opts dir a p = Some p' → counter_inv p → counter_inv p'.
Proof.
  unfold counter_inv. intros Hex (Hwg & Hsp & Hst & Hdone). destruct a; simpl in Hex.
  - destruct (p_spawner p) as [[i|i|]|]; try done.
    destruct (bool_decide _); [|done]. injection Hex as <-. simpl.
    repeat split; eauto. lia.
  - destruct (p_spawner p) as [[i|i|]|]; try done. injection Hex as <-. simpl.
    rewrite sum_over_app. repeat split; eauto. unfold live at 2. simpl. lia.
  - destruct (p_spawner p) as [[i|i|]|]; try done.
    destruct (bool_decide _); [done|]. injection Hex as <-. simpl.
    repeat split; eauto.
  - destruct (p_workers p !! k) as [[[] fpc seen got]|] eqn:Hk; try done.
    injection Hex as <-.
    weigh live Hk (mkWorker WRange FRecv ∅ got). repeat split; eauto. lia.
  - destruct (p_workers p !! k) as [[pc fpc seen got]|] eqn:Hk; [|done].
    destruct fpc; try (by destruct pc).
    destruct (p_toDownload p) as [|f rest] eqn:Hq.
    + assert (p' = set_worker k (mkWorker pc FClosed seen got) p) as ->.
      { destruct pc; try done; by injection Hex as <-. }
      weigh live Hk (mkWorker pc FClosed seen got). repeat split; eauto. lia.
    + destruct (seenFilter_body seen f (p_world p)) as [[seen1 sent] w1].
      assert (p_wg p' = p_wg p ∧ p_done p' = p_done p
              ∧ p_spawner p' = p_spawner p ∧ p_sentinel p' = p_sentinel p
              ∧ p_workers p'
                = <[k := mkWorker pc match sent with Some g => FSend g | None => FRecv end
                            seen1 got]> (p_workers p)) as (-> & -> & -> & -> & ->).
      { destruct pc; try done; by injection Hex as <-. }
      weigh live Hk (mkWorker pc match sent with Some g => FSend g | None => FRecv end
                       seen1 got).
      repeat split; eauto. lia.
  - destruct (p_workers p !! k) as [[[] [] seen got]|] eqn:Hk; try done.
    destruct (worker_body env dir f (p_world p)) as [[] w1].
    injection Hex as <-.
    weigh live Hk (mkWorker WRange FRecv seen (got ++ [f])). repeat split; eauto. lia.
  - destruct (p_workers p !! k) as [[[] [] seen got]|] eqn:Hk; try done.
    injection Hex as <-.
    weigh live Hk (mkWorker WDone FClosed seen got). repeat split; eauto. lia.
  - destruct (p_workers p !! k) as [[[] fpc seen got]|] eqn:Hk; try done.
    injection Hex as <-.
    weigh live Hk (mkWorker WExit fpc seen got). repeat split; eauto. lia.
  - destruct (p_sentinel p) as [[]|]; try done.
    destruct (bool_decide _); [|done]. injection Hex as <-. simpl.
    repeat split; eauto. done.
  - destruct (p_sentinel p) as [[]|]; try done. injection Hex as <-. simpl.
    repeat split; eauto.
Qed.

Lemma run_counter_inv env opts dir sched : ∀ p p',
  run env opts dir sched p = Some p' → counter_inv p → counter_inv p'.
Proof.
  induction sched as [|a rest IH]; intros p p'; simpl.
  - by intros [= <-].
  - destruct (exec env opts dir a p) as [p1|] eqn:Hex; [|done].
    intros Hrun Hinv. eapply IH; [exact Hrun|]. by eapply exec_counter_inv.
Qed.

Lemma launched_counter_inv toDownload w : counter_inv (launched toDownload w).
Proof. unfold counter_inv. simpl. repeat split; eauto. done. Qed.

(** An enabled step that names a worker names one that exists. *)
Lemma exec_in_all_actions env opts dir a p p' :
  exec env opts dir a p = Some p' → In a (all_actions (length (p_workers p))).
Proof.
  intros Hex. unfold all_actions. apply in_or_app.
  assert (Hworker : ∀ k, is_Some (p_workers p !! k) →
                         In a (worker_actions k) →
                         In a (concat (map worker_actions (seq 0 (length (p_workers p)))))).
  { intros k Hk Ha. apply in_concat. exists (worker_actions k). split; [|done].
    apply in_map, in_seq. apply lookup_lt_is_Some in Hk. lia. }
  destruct a; simpl in Hex;
    try (left; simpl; tauto);
    right; apply (Hworker k); try (simpl; tauto);
    destruct (p_workers p !! k); eauto; done.
Qed.

Lemma first_enabled_in_Some env opts dir l p a p1 :
  first_enabled_in env opts dir l p = Some (a, p1) → exec env opts dir a p = Some p1.
Proof.
  induction l as [|b l IH]; simpl; [done|].
  destruct (exec env opts dir b p) eqn:Hb; [|done]. by intros [= <- <-].
Qed.

Lemma first_enabled_in_None env opts dir l p a :
  first_enabled_in env opts dir l p = None → In a l → exec env opts dir a p = None.
Proof.
  induction l as [|b l IH]; simpl; [done|].
  destruct (exec env opts dir b p) eqn:Hb; [done|].
  intros Hnone [<-|Hin]; auto.
Qed.

Lemma first_enabled_None env opts dir p :
  first_enabled env opts dir p = None → ∀ a, exec env opts dir a p = None.
Proof.
  intros Hnone a. destruct (exec env opts dir a p) as [p'|] eqn:Hex; [|done].
  rewrite <- Hex. eapply first_enabled_in_None; [exact Hnone|].
  by eapply exec_in_all_actions.
Qed.

Lemma sum_over_live_exited l :
  Forall (λ wk, running wk = false) l → sum_over live l = 0%nat.
Proof.
  induction 1 as [|wk l Hwk _ IH]; simpl; [done|].
  unfold live at 1. by rewrite Hwk, IH.
Qed.

(** A state in which no goroutine can move: every worker has returned and
    [done] is closed. *)
Lemma stuck_is_completed env opts dir p :
  counter_inv p →
  (∀ a, exec env opts dir a p = None) →
  p_done p = true ∧ Forall (λ wk, running wk = false) (p_workers p).
Proof.
  intros (Hwg & [sp Hsp] & [st Hst] & Hdone) Hstuck.
  assert (Hexit : Forall (λ wk, running wk = false) (p_workers p)).
  { apply Forall_lookup_2. intros k [pc fpc seen got] Hk.
    destruct pc; [| | |done]; exfalso.
    - specialize (Hstuck (WorkerStart k)). simpl in Hstuck. by rewrite Hk in Hstuck.
    - destruct fpc.
      + specialize (Hstuck (FilterRecv k)). simpl in Hstuck. rewrite Hk in Hstuck.
        destruct (p_toDownload p); [done|].
        by destruct (seenFilter_body seen f (p_world p)) as [[] ?].
      + specialize (Hstuck (Handoff k)). simpl in Hstuck. rewrite Hk in Hstuck.
        by destruct (worker_body env dir f (p_world p)) as [[] ?].
      + specialize (Hstuck (WorkerDrained k)). simpl in Hstuck.
        by rewrite Hk in Hstuck.
    - specialize (Hstuck (WorkerWgDone k)). simpl in Hstuck. by rewrite Hk in Hstuck. }
  split; [|exact Hexit].
  assert (sp = SpExit) as ->.
  { destruct sp as [i|i|]; [| |done]; exfalso.
    - pose proof (Hstuck SpawnerAdd) as H1. pose proof (Hstuck SpawnerExit) as H2.
      simpl in H1, H2. rewrite Hsp in H1, H2. by destruct (bool_decide _).
    - specialize (Hstuck SpawnerGo). simpl in Hstuck. by rewrite Hsp in Hstuck. }
  rewrite Hsp, (sum_over_live_exited _ Hexit) in Hwg.
  destruct st.
  - specialize (Hstuck SentinelWait). simpl in Hstuck. rewrite Hst in Hstuck.
    rewrite bool_decide_eq_true_2 in Hstuck; [done|]. rewrite Hwg. done.
  - specialize (Hstuck SentinelClose). simpl in Hstuck. by rewrite Hst in Hstuck.
  - auto.
Qed.

(** From a state that satisfies the counter invariant the goroutines can
    always run to completion. *)
Lemma completes env opts dir : ∀ (n : nat) (p : Pool),
  (steps_left (workers opts) p ≤ n)%nat →
  counter_inv p →
  ∃ sched p',
    run env opts dir sched p = Some p'
    ∧ (∀ a, exec env opts dir a p' = None)
    ∧ p_done p' = true
    ∧ Forall (λ wk, running wk = false) (p_workers p').
Proof.
  induction n as [|n IH]; intros p Hn Hinv;
    destruct (first_enabled env opts dir p) as [[a p1]|] eqn:Hfirst.
  - apply first_enabled_in_Some, exec_steps_left in Hfirst. lia.
  - exists [], p. pose proof (first_enabled_None _ _ _ _ Hfirst) as Hstuck.
    destruct (stuck_is_completed env opts dir p Hinv Hstuck). simpl. auto.
  - apply first_enabled_in_Some in Hfirst.
    pose proof (exec_steps_left _ _ _ _ _ _ Hfirst) as Hlt.
    destruct (IH p1) as (sched & p' & Hrun & Hrest);
      [lia | by eapply exec_counter_inv |].
    exists (a :: sched), p'. simpl. rewrite Hfirst. auto.
  - exists [], p. pose proof (first_enabled_None _ _ _ _ Hfirst) as Hstuck.
    destruct (stuck_is_completed env opts dir p Hinv Hstuck). simpl. auto.
Qed.

(** Completion in this transition system, where [wg.Wait] is one test of
    the counter and [toDownload] is closed once its last item is taken:
    after [fileDownloader] has launched its goroutines every run is
    bounded, every run can be continued until no goroutine can move, and
    whenever no goroutine can move [done] is closed and every worker has
    returned. *)
Lemma fileDownloader_completion_fires env opts dir toDownload w sched p :
  snd (fileDownloader env opts dir toDownload w) = None →
  run env opts dir sched (fst (fileDownloader env opts dir toDownload w)) = Some p →
  (length sched
   ≤ steps_left (workers opts) (fst (fileDownloader env opts dir toDownload w)))%nat
  ∧ ((∀ a, exec env opts dir a p = None) → p_done p = true)
  ∧ ∃ sched' p',
      run env opts dir (sched ++ sched')
        (fst (fileDownloader env opts dir toDownload w)) = Some p'
      ∧ p_done p' = true
      ∧ Forall (λ wk, running wk = false) (p_workers p').
Proof.
  intros Herr Hrun.
  split; [pose proof (run_bounded _ _ _ _ _ _ Hrun); lia|].
  unfold fileDownloader in *. destruct (dumpfiles opts); simpl in *.
  - destruct (os_Mkdir env dir w) as [[e|] w1]; simpl in *.
    + destruct (os_IsExist e); simpl in *; [|done].
      pose proof (run_counter_inv _ _ _ _ _ _ Hrun (launched_counter_inv _ _)) as Hinv.
      split; [intros Hstuck; by destruct (stuck_is_completed _ _ _ _ Hinv Hstuck)|].
      destruct (completes env opts dir _ p (le_n _) Hinv) as (s' & p' & Hr & _ & Hd & Hx).
      exists s', p'. split; [|done]. clear -Hrun Hr.
      revert Hrun. generalize (launched toDownload w1).
      induction sched as [|a rest IH]; intros q; simpl.
      * by intros [= ->].
      * destruct (exec env opts dir a q); [apply IH|done].
    + pose proof (run_counter_inv _ _ _ _ _ _ Hrun (launched_counter_inv _ _)) as Hinv.
      split; [intros Hstuck; by destruct (stuck_is_completed _ _ _ _ Hinv Hstuck)|].
      destruct (completes env opts dir _ p (le_n _) Hinv) as (s' & p' & Hr & _ & Hd & Hx).
      exists s', p'. split; [|done]. clear -Hrun Hr.
      revert Hrun. generalize (launched toDownload w1).
      induction sched as [|a rest IH]; intros q; simpl.
      * by intros [= ->].
      * destruct (exec env opts dir a q); [apply IH|done].
  - apply run_no_goroutines in Hrun as [-> ->]. simpl. split; [done|].
    exists [], (no_goroutines true toDownload w). simpl. repeat split. constructor.
Qed.

(** * Further properties of the coordinator *)

Lemma run_app env opts dir s1 : ∀ s2 p p1,
  run env opts dir s1 p = Some p1 →
  run env opts dir (s1 ++ s2) p = run env opts dir s2 p1.
Proof.
  induction s1 as [|a s1 IH]; intros s2 p p1; simpl.
  - by intros [= ->].
  - destruct (exec env opts dir a p); [apply IH|done].
Qed.

(** The state [fileDownloader] returns. *)
Lemma fileDownloader_state env opts dir toDownload w :
  fst (fileDownloader env opts dir toDownload w)
  = if dumpfiles opts then
      match snd (fileDownloader env opts dir toDownload w) with
      | None => launched toDownload (snd (os_Mkdir env dir w))
      | Some _ => no_goroutines false toDownload (snd (os_Mkdir env dir w))
      end
    else no_goroutines true toDownload w.
Proof.
  unfold fileDownloader. destruct (dumpfiles opts); simpl; [|done].
  destruct (os_Mkdir env dir w) as [[e|] w1]; simpl; [|done].
  by destruct (os_IsExist e).
Qed.

Lemma fileDownloader_completion_fires_witness :
  snd (fileDownloader env_ok opts_one "out" [file_a] w_empty) = None
  ∧ ∃ p,
      run env_ok opts_one "out" sched_early_done
        (fst (fileDownloader env_ok opts_one "out" [file_a] w_empty)) = Some p
      ∧ (length sched_early_done
         ≤ steps_left (workers opts_one)
             (fst (fileDownloader env_ok opts_one "out" [file_a] w_empty)))%nat
      ∧ ∃ sched' p',
          run env_ok opts_one "out" (sched_early_done ++ sched')
            (fst (fileDownloader env_ok opts_one "out" [file_a] w_empty)) = Some p'
          ∧ p_done p' = true
          ∧ Forall (λ wk, running wk = false) (p_workers p').
Proof.
  split; [reflexivity|].
  assert (Hsome : ∃ p, run env_ok opts_one "out" sched_early_done
                         (fst (fileDownloader env_ok opts_one "out" [file_a] w_empty))
                       = Some p)
    by (vm_compute; eexists; reflexivity).
  destruct Hsome as [p Hrun].
  exists p. split; [exact Hrun|].
  destruct (fileDownloader_completion_fires env_ok opts_one "out" [file_a] w_empty
              sched_early_done p eq_refl Hrun) as (Hlen & _ & Hrest).
  split; [exact Hlen | exact Hrest].
Defined.

Lemma fileDownloader_dedup_per_worker_witness :
  ∃ p wk,
    run env_ok opts_two "out" sched_split
      (fst (fileDownloader env_ok opts_two "out" [file_a; file_a] w_empty)) = Some p
    ∧ p_workers p !! 1%nat = Some wk
    ∧ NoDup (ID <$> w_got wk).
Proof.
  assert (Hsome : ∃ p wk,
             run env_ok opts_two "out" sched_split
               (fst (fileDownloader env_ok opts_two "out" [file_a; file_a] w_empty))
             = Some p
             ∧ p_workers p !! 1%nat = Some wk)
    by (vm_compute; eexists _, _; split; reflexivity).
  destruct Hsome as (p & wk & Hrun & Hk).
  exists p, wk. split; [exact Hrun|]. split; [exact Hk|].
  exact (fileDownloader_dedup_per_worker env_ok opts_two "out" [file_a; file_a]
           w_empty sched_split p 1%nat wk Hrun Hk).
Defined.

(** X1: with downloading switched off [fileDownloader] returns no error
    and a [done] channel that is already closed; it does not call
    [os.Mkdir], leaves the world as it is, starts no goroutine, and in no
    run is any item taken from [toDownload]. *)
Theorem fileDownloader_disabled_short_circuit
    (env : Env) (opts : Options) (dir : string) (toDownload : list File) (w : World) :
  dumpfiles opts = false →
  snd (fileDownloader env opts dir toDownload w) = None
  ∧ p_done (fst (fileDownloader env opts dir toDownload w)) = true
  ∧ p_world (fst (fileDownloader env opts dir toDownload w)) = w
  ∧ ∀ sched p,
      run env opts dir sched (fst (fileDownloader env opts dir toDownload w)) = Some p →
      sched = [] ∧ p_world p = w ∧ p_toDownload p = toDownload ∧ p_workers p = [].
Proof.
  intros Hoff. unfold fileDownloader. rewrite Hoff. simpl.
  repeat split; apply run_no_goroutines in H; by destruct H as [-> ->].
Qed.

Lemma fileDownloader_disabled_short_circuit_witness :
  dumpfiles opts_off = false
  ∧ snd (fileDownloader env_denied opts_off "out" [file_a; file_b] w_empty) = None
  ∧ p_done (fst (fileDownloader env_denied opts_off "out" [file_a; file_b] w_empty)) = true
  ∧ p_world (fst (fileDownloader env_denied opts_off "out" [file_a; file_b] w_empty))
    = w_empty.
Proof.
  split; [reflexivity|].
  destruct (fileDownloader_disabled_short_circuit env_denied opts_off "out"
              [file_a; file_b] w_empty eq_refl) as (H1 & H2 & H3 & _).
  split; [exact H1|]. split; [exact H2 | exact H3].
Defined.

(** The spawner starts the workers one by one and stops at [workers]. *)
Lemma exec_size_inv env opts dir a p p' :
  exec env opts dir a p = Some p' →
  size_inv (workers opts) p → size_inv (workers opts) p'.
Proof.
  unfold size_inv. intros Hex Hinv. destruct a; simpl in Hex.
  - destruct (p_spawner p) as [[i|i|]|]; try done.
    destruct (bool_decide_reflect (i < workers opts)); [|done].
    injection Hex as <-. simpl. lia.
  - destruct (p_spawner p) as [[i|i|]|]; try done. injection Hex as <-. simpl.
    rewrite length_app. simpl. lia.
  - destruct (p_spawner p) as [[i|i|]|]; try done.
    destruct (bool_decide_reflect (i < workers opts)); [done|].
    injection Hex as <-. simpl. lia.
  - destruct (p_workers p !! k) as [[[] fpc seen got]|] eqn:Hk; try done.
    injection Hex as <-. simpl. by rewrite length_insert.
  - destruct (p_workers p !! k) as [[pc fpc seen got]|] eqn:Hk; [|done].
    destruct fpc; try (by destruct pc).
    destruct (p_toDownload p) as [|f rest] eqn:Hq.
    + assert (p' = set_worker k (mkWorker pc FClosed seen got) p) as ->.
      { destruct pc; try done; by injection Hex as <-. }
      simpl. by rewrite length_insert.
    + destruct (seenFilter_body seen f (p_world p)) as [[seen1 sent] w1].
      assert (p_spawner p' = p_spawner p
              ∧ length (p_workers p') = length (p_workers p)) as [-> ->]; [|done].
      destruct pc; try done; injection Hex as <-; simpl; by rewrite length_insert.
  - destruct (p_workers p !! k) as [[[] [] seen got]|] eqn:Hk; try done.
    destruct (worker_body env dir f (p_world p)) as [[] w1].
    injection Hex as <-. simpl. by rewrite length_insert.
  - destruct (p_workers p !! k) as [[[] [] seen got]|] eqn:Hk; try done.
    injection Hex as <-. simpl. by rewrite length_insert.
  - destruct (p_workers p !! k) as [[[] fpc seen got]|] eqn:Hk; try done.
    injection Hex as <-. simpl. by rewrite length_insert.
  - destruct (p_sentinel p) as [[]|]; try done.
    destruct (bool_decide _); [|done]. by injection Hex as <-.
  - destruct (p_sentinel p) as [[]|]; try done. by injection Hex as <-.
Qed.

Lemma run_size_inv env opts dir sched : ∀ p p',
  run env opts dir sched p = Some p' →
  size_inv (workers opts) p → size_inv (workers opts) p'.
Proof.
  induction sched as [|a rest IH]; intros p p'; simpl.
  - by intros [= <-].
  - destruct (exec env opts dir a p) as [p1|] eqn:Hex; [|done].
    intros Hrun Hinv. eapply IH; [exact Hrun|]. by eapply exec_size_inv.
Qed.

Lemma fileDownloader_size_inv env opts dir toDownload w :
  size_inv (workers opts) (fst (fileDownloader env opts dir toDownload w)).
Proof.
  rewrite fileDownloader_state. unfold size_inv.
  destruct (dumpfiles opts); [|done].
  destruct (snd (fileDownloader env opts dir toDownload w)); simpl; [done|lia].
Qed.

Lemma size_inv_bound workers p :
  size_inv workers p → Z.of_nat (length (p_workers p)) ≤ Z.max 0 workers.
Proof.
  unfold size_inv. destruct (p_spawner p) as [[i|i|]|]; lia.
Qed.

(** X4: the pool never holds more worker goroutines than [workers] says
    (none when it is zero or negative), in any run. *)
Theorem fileDownloader_pool_size
    (env : Env) (opts : Options) (dir : string) (toDownload : list File) (w : World)
    (sched : list action) (p : Pool) :
  run env opts dir sched (fst (fileDownloader env opts dir toDownload w)) = Some p →
  Z.of_nat (length (p_workers p)) ≤ Z.max 0 (workers opts).
Proof.
  intros Hrun. apply size_inv_bound.
  eapply run_size_inv; [exact Hrun|]. apply fileDownloader_size_inv.
Qed.

Lemma fileDownloader_pool_size_witness :
  ∃ p,
    run env_ok opts_two "out" sched_split
      (fst (fileDownloader env_ok opts_two "out" [file_a; file_a] w_empty)) = Some p
    ∧ Z.of_nat (length (p_workers p)) ≤ Z.max 0 (workers opts_two).
Proof.
  assert (Hsome : ∃ p, run env_ok opts_two "out" sched_split
                         (fst (fileDownloader env_ok opts_two "out" [file_a; file_a]
                                 w_empty))
                       = Some p)
    by (vm_compute; eexists; reflexivity).
  destruct Hsome as [p Hrun].
  exists p. split; [exact Hrun|].
  exact (fileDownloader_pool_size env_ok opts_two "out" [file_a; file_a] w_empty
           sched_split p Hrun).
Defined.

(** Without workers nothing reads [toDownload] and nothing touches the
    world. *)
Lemma exec_without_workers env opts dir a p p' :
  exec env opts dir a p = Some p' →
  p_workers p = [] →
  p_toDownload p' = p_toDownload p ∧ p_world p' = p_world p.
Proof.
  intros Hex Hnil. destruct a; simpl in Hex; try (by rewrite Hnil in Hex).
  - destruct (p_spawner p) as [[i|i|]|]; try done.
    destruct (bool_decide _); [|done]. by injection Hex as <-.
  - destruct (p_spawner p) as [[i|i|]|]; try done. by injection Hex as <-.
  - destruct (p_spawner p) as [[i|i|]|]; try done.
    destruct (bool_decide _); [done|]. by injection Hex as <-.
  - destruct (p_sentinel p) as [[]|]; try done.
    destruct (bool_decide _); [|done]. by injection Hex as <-.
  - destruct (p_sentinel p) as [[]|]; try done. by injection Hex as <-.
Qed.

Lemma run_without_workers env opts dir sched : ∀ p p',
  workers opts ≤ 0 →
  size_inv (workers opts) p →
  run env opts dir sched p = Some p' →
  p_workers p' = [] ∧ p_toDownload p' = p_toDownload p ∧ p_world p' = p_world p.
Proof.
  induction sched as [|a rest IH]; intros p p' Hw Hinv; simpl.
  - intros [= <-]. split; [|done].
    apply size_inv_bound in Hinv. apply nil_length_inv. lia.
  - destruct (exec env opts dir a p) as [p1|] eqn:Hex; [|done]. intros Hrun.
    assert (Hnil : p_workers p = []).
    { apply size_inv_bound in Hinv. apply nil_length_inv. lia. }
    destruct (exec_without_workers _ _ _ _ _ _ Hex Hnil) as [<- <-].
    eapply IH; [done | by eapply exec_size_inv | done].
Qed.

(** X5: with downloading enabled and [workers] zero or negative, no worker is ever started, so
    in no run is an item taken from [toDownload] and nothing is written;
    [done] is closed all the same. *)
Theorem fileDownloader_no_workers
    (env : Env) (opts : Options) (dir : string) (toDownload : list File) (w : World) :
  dumpfiles opts = true →
  workers opts ≤ 0 →
  snd (fileDownloader env opts dir toDownload w) = None →
  (∀ sched p,
     run env opts dir sched (fst (fileDownloader env opts dir toDownload w)) = Some p →
     p_workers p = []
     ∧ p_toDownload p = toDownload
     ∧ p_world p = p_world (fst (fileDownloader env opts dir toDownload w)))
  ∧ ∃ p,
      run env opts dir sched_no_workers
        (fst (fileDownloader env opts dir toDownload w)) = Some p
      ∧ p_done p = true.
Proof.
  intros Hon Hw Herr. split.
  - intros sched p Hrun.
    destruct (run_without_workers _ _ _ _ _ _ Hw
                (fileDownloader_size_inv env opts dir toDownload w) Hrun)
      as (Hnil & Htd & Hworld).
    split; [done|]. split; [|done]. rewrite Htd, fileDownloader_state.
    destruct (dumpfiles opts); [|done].
    by destruct (snd (fileDownloader env opts dir toDownload w)).
  - rewrite fileDownloader_state, Herr, Hon. simpl.
    rewrite bool_decide_eq_false_2 by lia. simpl. eauto.
Qed.

Lemma fileDownloader_no_workers_witness :
  dumpfiles opts_zero = true
  ∧ workers opts_zero ≤ 0
  ∧ snd (fileDownloader env_ok opts_zero "out" [file_a; file_b] w_empty) = None
  ∧ ∃ p,
      run env_ok opts_zero "out" sched_no_workers
        (fst (fileDownloader env_ok opts_zero "out" [file_a; file_b] w_empty)) = Some p
      ∧ p_done p = true.
Proof.
  split; [reflexivity|]. split; [discriminate|]. split; [reflexivity|].
  assert (Hw : workers opts_zero ≤ 0) by discriminate.
  destruct (fileDownloader_no_workers env_ok opts_zero "out" [file_a; file_b] w_empty
              eq_refl Hw eq_refl) as [_ H].
  exact H.
Defined.

Lemma skips_app t1 t2 : skips (t1 ++ t2) = skips t1 ++ skips t2.
Proof.
  induction t1 as [|e t1 IH]; simpl; [done|].
  destruct e as [| | | | |[]]; simpl; by rewrite ?IH.
Qed.

(** The loop body of the worker writes no skip line. *)
Lemma worker_body_skips env dir f w :
  skips (trace (snd (worker_body env dir f w))) = skips (trace w).
Proof.
  destruct (worker_body_spec env dir f w) as (_ & _ & ->).
  pose proof (SaveFileTo_cases env dir f
                (snd (log_Printf (LogSaving (filename f) (Size f)) w))) as H.
  destruct (SaveFileTo env dir f _) as [[n err] w1]. simpl in *.
  destruct (fst (os_Create env _ _)) as [e|].
  - destruct H as (_ & -> & _ & _ & ->). rewrite !skips_app. simpl.
    by rewrite !app_nil_r.
  - destruct H as (_ & H). destruct (snd (remote env _)) as [e|].
    + destruct H as (_ & -> & _ & ->). rewrite !skips_app. simpl.
      by rewrite !app_nil_r.
    + destruct H as (_ & -> & _ & ->). rewrite !skips_app. simpl.
      by rewrite !app_nil_r.
Qed.

Lemma phase_inv_fresh toDownload : phase_inv toDownload (mkWorker WStart FRecv ∅ []).
Proof. split; [done|]. split; [by intros [|]|done]. Qed.

(** Relates both sums over the workers before and after worker [k] is
    replaced. *)
Ltac weigh_items Hk new :=
  let Hh := fresh "Hh" in
  let Hr := fresh "Hr" in
  pose proof (sum_over_insert held _ _ _ new Hk) as Hh;
  pose proof (sum_over_insert received _ _ _ new Hk) as Hr;
  repeat match type of Hh with
         | context [held ?wk] =>
             let v := eval cbv [held w_got w_filter] in (held wk) in
             change (held wk) with v in Hh
         end;
  repeat match type of Hr with
         | context [received ?wk] =>
             let v := eval cbv [received w_got] in (received wk) in
             change (received wk) with v in Hr
         end.

(** Every step keeps the account of the items. *)
Lemma exec_conserve_inv env opts dir n s0 c0 a p p' :
  exec env opts dir a p = Some p' →
  conserve_inv n s0 c0 p → conserve_inv n s0 c0 p'.
Proof.
  unfold conserve_inv. intros Hex (Hitems & Hcreates & Hphase).
  destruct a; simpl in Hex.
  - destruct (p_spawner p) as [[i|i|]|]; try done.
    destruct (bool_decide _); [|done]. by injection Hex as <-.
  - destruct (p_spawner p) as [[i|i|]|]; try done. injection Hex as <-. simpl.
    rewrite !sum_over_app.
    change (held (mkWorker WStart FRecv ∅ [])) with 0%nat.
    change (received (mkWorker WStart FRecv ∅ [])) with 0%nat.
    split; [lia|]. split; [lia|].
    apply Forall_app. split; [done|].
    constructor; [apply phase_inv_fresh|constructor].
  - destruct (p_spawner p) as [[i|i|]|]; try done.
    destruct (bool_decide _); [done|]. by injection Hex as <-.
  - destruct (p_workers p !! k) as [[[] fpc seen got]|] eqn:Hk; try done.
    injection Hex as <-. simpl.
    destruct (Forall_lookup_1 _ _ _ _ Hphase Hk) as (_ & _ & Hstart).
    destruct (Hstart eq_refl) as [Hf Hg]. simpl in Hf, Hg. subst fpc got.
    weigh_items Hk (mkWorker WRange FRecv ∅ []). simpl in *.
    split; [lia|]. split; [lia|].
    apply Forall_insert; [done|]. split; [done|]. split; [by intros [|]|done].
  - destruct (p_workers p !! k) as [[pc fpc seen got]|] eqn:Hk; [|done].
    destruct fpc; try (by destruct pc).
    destruct (Forall_lookup_1 _ _ _ _ Hphase Hk) as (_ & Hlate & _).
    simpl in Hlate.
    assert (Hpc : pc = WRange).
    { destruct pc; try done; by (discriminate Hlate; auto). }
    subst pc.
    destruct (p_toDownload p) as [|f rest] eqn:Hq.
    + injection Hex as <-. simpl. rewrite Hq.
      weigh_items Hk (mkWorker WRange FClosed seen got). simpl in *.
      split; [lia|]. split; [lia|].
      apply Forall_insert; [done|]. split; [done|]. split; [done|done].
    + assert (Hopen : Forall (phase_inv rest) (p_workers p)).
      { eapply Forall_impl; [exact Hphase|]. intros wk (Hc & Hl & Hs).
        split; [|done]. intros Hcl. by specialize (Hc Hcl). }
      unfold seenFilter_body in Hex.
      destruct (seen !! ID f) as [b|] eqn:Hf; simpl in Hex; injection Hex as <-; simpl.
      * weigh_items Hk (mkWorker WRange FRecv seen got). simpl in *.
        rewrite skips_app, creates_app, !length_app. simpl.
        split; [lia|]. split; [lia|].
        apply Forall_insert; [done|]. split; [done|]. split; [by intros [|]|done].
      * weigh_items Hk (mkWorker WRange (FSend f) (<[ID f := true]> seen) got).
        simpl in *.
        split; [lia|]. split; [lia|].
        apply Forall_insert; [done|]. split; [done|]. split; [by intros [|]|done].
  - destruct (p_workers p !! k) as [[[] [] seen got]|] eqn:Hk; try done.
    pose proof (worker_body_skips env dir f (p_world p)) as Hsk.
    pose proof (worker_body_creates env dir f (p_world p)) as Hcr.
    destruct (worker_body env dir f (p_world p)) as [[] w1].
    injection Hex as <-. simpl in *. rewrite Hsk, Hcr, !length_app. simpl.
    weigh_items Hk (mkWorker WRange FRecv seen (got ++ [f])).
    rewrite length_app in Hh, Hr. simpl in *.
    split; [lia|]. split; [lia|].
    apply Forall_insert; [done|]. split; [done|]. split; [by intros [|]|done].
  - destruct (p_workers p !! k) as [[[] [] seen got]|] eqn:Hk; try done.
    injection Hex as <-. simpl.
    destruct (Forall_lookup_1 _ _ _ _ Hphase Hk) as (Hclosed & _ & _).
    weigh_items Hk (mkWorker WDone FClosed seen got). simpl in *.
    split; [lia|]. split; [lia|].
    apply Forall_insert; [done|]. split; [done|]. split; [done|done].
  - destruct (p_workers p !! k) as [[[] fpc seen got]|] eqn:Hk; try done.
    injection Hex as <-. simpl.
    destruct (Forall_lookup_1 _ _ _ _ Hphase Hk) as (Hclosed & Hlate & _).
    simpl in Hclosed, Hlate.
    weigh_items Hk (mkWorker WExit fpc seen got). simpl in *.
    split; [lia|]. split; [lia|].
    apply Forall_insert; [done|]. split; [done|]. split; [auto|done].
  - destruct (p_sentinel p) as [[]|]; try done.
    destruct (bool_decide _); [|done]. by injection Hex as <-.
  - destruct (p_sentinel p) as [[]|]; try done. by injection Hex as <-.
Qed.

Lemma run_conserve_inv env opts dir n s0 c0 sched : ∀ p p',
  run env opts dir sched p = Some p' →
  conserve_inv n s0 c0 p → conserve_inv n s0 c0 p'.
Proof.
  induction sched as [|a rest IH]; intros p p'; simpl.
  - by intros [= <-].
  - destruct (exec env opts dir a p) as [p1|] eqn:Hex; [|done].
    intros Hrun Hinv. eapply IH; [exact Hrun|]. by eapply exec_conserve_inv.
Qed.

Lemma sum_over_ext (f g : Worker → nat) l :
  Forall (λ wk, f wk = g wk) l → sum_over f l = sum_over g l.
Proof. induction 1 as [|wk l Hwk _ IH]; simpl; [done|]. by rewrite Hwk, IH. Qed.

(** When no goroutine can move, the spawner has left its loop. *)
Lemma stuck_spawner_exit env opts dir p :
  is_Some (p_spawner p) →
  (∀ a, exec env opts dir a p = None) →
  p_spawner p = Some SpExit.
Proof.
  intros [sp Hsp] Hstuck. destruct sp as [i|i|]; [| |done]; exfalso.
  - pose proof (Hstuck SpawnerAdd) as H1. pose proof (Hstuck SpawnerExit) as H2.
    simpl in H1, H2. rewrite Hsp in H1, H2. by destruct (bool_decide _).
  - specialize (Hstuck SpawnerGo). simpl in Hstuck. by rewrite Hsp in Hstuck.
Qed.

Lemma launched_conserve_inv toDownload w :
  conserve_inv (length toDownload) (length (skips (trace w)))
    (length (creates (trace w))) (launched toDownload w).
Proof. unfold conserve_inv. simpl. split; [lia|]. split; [lia|constructor]. Qed.

(** X6: with at least one worker, when a run has come to its end every
    item the caller sent has been taken from [toDownload], and each was
    either handed to a worker, which called [os.Create] for it once, or
    logged as skipped: the new create calls and the new skip lines add up
    to the number of items. *)
Theorem fileDownloader_no_item_lost
    (env : Env) (opts : Options) (dir : string) (toDownload : list File) (w : World)
    (sched : list action) (p : Pool) :
  1 ≤ workers opts →
  dumpfiles opts = true →
  snd (fileDownloader env opts dir toDownload w) = None →
  run env opts dir sched (fst (fileDownloader env opts dir toDownload w)) = Some p →
  (∀ a, exec env opts dir a p = None) →
  p_toDownload p = []
  ∧ (length (creates (trace (p_world p))) + length (skips (trace (p_world p)))
     = length toDownload + length (creates (trace w)) + length (skips (trace w)))%nat
  ∧ (length (creates (trace (p_world p)))
     = length (creates (trace w)) + sum_over received (p_workers p))%nat.
Proof.
  intros Hw Hon Herr Hrun Hstuck.
  rewrite fileDownloader_state, Hon, Herr in Hrun.
  destruct (os_Mkdir_cases env dir w) as (Ht & _ & _).
  set (w1 := snd (os_Mkdir env dir w)) in *.
  pose proof (run_conserve_inv _ _ _ _ _ _ _ _ _ Hrun (launched_conserve_inv _ w1))
    as (Hitems & Hcreates & Hphase).
  pose proof (run_counter_inv _ _ _ _ _ _ Hrun (launched_counter_inv _ w1)) as Hcount.
  assert (Hsize : size_inv (workers opts) p).
  { eapply run_size_inv; [exact Hrun|]. unfold size_inv. simpl. lia. }
  destruct (stuck_is_completed _ _ _ _ Hcount Hstuck) as [_ Hexit].
  destruct Hcount as (_ & Hsp & _).
  unfold size_inv in Hsize.
  rewrite (stuck_spawner_exit _ _ _ _ Hsp Hstuck) in Hsize.
  assert (Hclosed : Forall (λ wk, w_filter wk = FClosed) (p_workers p)).
  { apply Forall_lookup_2. intros k wk Hk.
    destruct (Forall_lookup_1 _ _ _ _ Hphase Hk) as (_ & Hlate & _).
    pose proof (Forall_lookup_1 _ _ _ _ Hexit Hk) as Hrunning. simpl in Hrunning.
    apply Hlate. right. unfold running in Hrunning. by destruct (w_pc wk). }
  assert (Hempty : p_toDownload p = []).
  { destruct (p_workers p) as [|wk l]; [simpl in Hsize; lia|].
    apply Forall_cons in Hphase as [(Hc & _ & _) _].
    apply Forall_cons in Hclosed as [Hcl _]. by apply Hc. }
  assert (Hheld : sum_over held (p_workers p) = sum_over received (p_workers p)).
  { apply sum_over_ext. eapply Forall_impl; [exact Hclosed|].
    intros wk Hwk. unfold held, received. rewrite Hwk. lia. }
  rewrite Ht, skips_app in Hitems. rewrite Ht, creates_app in Hcreates.
  simpl in Hitems, Hcreates. rewrite app_nil_r in Hitems, Hcreates.
  rewrite Hempty in Hitems. simpl in Hitems.
  split; [done|]. split; lia.
Qed.

Lemma fileDownloader_no_item_lost_witness :
  1 ≤ workers opts_one
  ∧ dumpfiles opts_one = true
  ∧ snd (fileDownloader env_ok opts_one "out" [file_a; file_a_again] w_empty) = None
  ∧ ∃ p,
      run env_ok opts_one "out" sched_complete
        (fst (fileDownloader env_ok opts_one "out" [file_a; file_a_again] w_empty))
      = Some p
      ∧ first_enabled env_ok opts_one "out" p = None
      ∧ p_toDownload p = []
      ∧ (length (creates (trace (p_world p))) + length (skips (trace (p_world p)))
         = length [file_a; file_a_again] + length (creates (trace w_empty))
           + length (skips (trace w_empty)))%nat.
Proof.
  assert (Hw : 1 ≤ workers opts_one) by discriminate.
  split; [exact Hw|]. split; [reflexivity|]. split; [reflexivity|].
  assert (Hsome : ∃ p,
             run env_ok opts_one "out" sched_complete
               (fst (fileDownloader env_ok opts_one "out" [file_a; file_a_again] w_empty))
             = Some p
             ∧ first_enabled env_ok opts_one "out" p = None)
    by (vm_compute; eexists; split; reflexivity).
  destruct Hsome as (p & Hrun & Hstuck).
  exists p. split; [exact Hrun|]. split; [exact Hstuck|].
  destruct (fileDownloader_no_item_lost env_ok opts_one "out" [file_a; file_a_again]
              w_empty sched_complete p Hw eq_refl eq_refl Hrun
              (first_enabled_None _ _ _ _ Hstuck)) as (H1 & H2 & _).
  split; [exact H1 | exact H2].
Defined.

(** * Further properties of the deduplication stage *)

(** What [seenFilter_loop] sends: a subsequence of its input with
    pairwise distinct IDs, none of them in [seen] at the start, and one
    item for every ID of the input that was not in [seen]. *)
Lemma seenFilter_loop_output (filesC : list File) : ∀ (seen : gmap string bool) (w : World),
  let dlQ := fst (seenFilter_loop seen filesC w) in
  NoDup (ID <$> dlQ)
  ∧ (∀ f, f ∈ dlQ → seen !! ID f = None)
  ∧ dlQ `sublist_of` filesC
  ∧ (∀ f, f ∈ filesC → is_Some (seen !! ID f) ∨ ID f ∈ ID <$> dlQ).
Proof.
  induction filesC as [|f rest IH]; intros seen w.
  - simpl. split; [apply NoDup_nil_2|]. split; [by intros f ?%elem_of_nil|].
    split; [done|]. by intros f ?%elem_of_nil.
  - cbv zeta. rewrite seenFilter_loop_cons.
    destruct (seen !! ID f) as [b|] eqn:Hseen.
    + destruct (IH seen (snd (log_Printf (LogSkip (filename f)) w)))
        as (Hnd & Hnew & Hsub & Hall).
      split; [done|]. split; [done|]. split; [by apply sublist_cons|].
      intros g [->|Hg]%elem_of_cons; [left; eauto | auto].
    + destruct (IH (<[ID f := true]> seen) w) as (Hnd & Hnew & Hsub & Hall).
      simpl. split; [|split; [|split]].
      * apply NoDup_cons. split; [|done].
        intros (g & Heq & Hg)%list_elem_of_fmap.
        specialize (Hnew g Hg). rewrite <- Heq, lookup_insert_eq in Hnew. done.
      * intros g [->|Hg]%elem_of_cons; [done|].
        specialize (Hnew g Hg).
        destruct (decide (ID f = ID g)) as [Heq|Hne].
        -- rewrite <- Heq, lookup_insert_eq in Hnew. done.
        -- by rewrite lookup_insert_ne in Hnew.
      * by apply sublist_skip.
      * intros g [->|Hg]%elem_of_cons.
        -- right. apply elem_of_cons. by left.
        -- destruct (Hall g Hg) as [Hs|Hin].
           ++ destruct (decide (ID f = ID g)) as [Heq|Hne].
              ** right. apply elem_of_cons. left. done.
              ** left. by rewrite lookup_insert_ne in Hs.
           ++ right. apply elem_of_cons. by right.
Qed.

(** Every item is either sent or logged as skipped. *)
Lemma seenFilter_loop_count (filesC : list File) : ∀ (seen : gmap string bool) (w : World),
  (length (fst (seenFilter_loop seen filesC w))
   + length (skips (trace (snd (seenFilter_loop seen filesC w))))
   = length filesC + length (skips (trace w)))%nat.
Proof.
  induction filesC as [|f rest IH]; intros seen w.
  - done.
  - rewrite seenFilter_loop_cons. destruct (seen !! ID f) as [b|].
    + rewrite IH. simpl. rewrite skips_app, length_app. simpl. lia.
    + simpl. specialize (IH (<[ID f := true]> seen) w). lia.
Qed.

(** X7: what one [seenFilter] stage sends is a subsequence of what it
    receives (the order of admission is the order of arrival), no two
    items sent share an ID, every ID received is sent once, and every item
    received is either sent or logged as skipped. *)
Theorem seenFilter_output (filesC : list File) (w : World) :
  NoDup (ID <$> fst (seenFilter filesC w))
  ∧ fst (seenFilter filesC w) `sublist_of` filesC
  ∧ (∀ f, f ∈ filesC → ID f ∈ ID <$> fst (seenFilter filesC w))
  ∧ (length (fst (seenFilter filesC w))
     + length (skips (trace (snd (seenFilter filesC w))))
     = length filesC + length (skips (trace w)))%nat.
Proof.
  unfold seenFilter.
  destruct (seenFilter_loop_output filesC ∅ w) as (Hnd & _ & Hsub & Hall).
  split; [done|]. split; [done|]. split; [|apply seenFilter_loop_count].
  intros f Hf. destruct (Hall f Hf) as [[b Hb]|Hin]; [|done].
  by rewrite lookup_empty in Hb.
Qed.

(** Items with distinct IDs unknown to [seen] pass as they are. *)
Lemma seenFilter_loop_distinct (filesC : list File) : ∀ (seen : gmap string bool) (w : World),
  NoDup (ID <$> filesC) →
  (∀ f, f ∈ filesC → seen !! ID f = None) →
  seenFilter_loop seen filesC w = (filesC, w).
Proof.
  induction filesC as [|f rest IH]; intros seen w Hnd Hnew; [done|].
  rewrite seenFilter_loop_cons, (Hnew f) by apply list_elem_of_here.
  rewrite fmap_cons in Hnd. apply NoDup_cons in Hnd as [Hf Hnd].
  rewrite IH; [done|done|].
  intros g Hg. rewrite lookup_insert_ne; [apply Hnew; by apply elem_of_cons; right|].
  intros Heq. apply Hf. rewrite Heq. by apply list_elem_of_fmap_2.
Qed.

(** X8: a sequence of attachments with pairwise distinct IDs passes a
    [seenFilter] stage unchanged, and the stage logs nothing. *)
Theorem seenFilter_distinct_input (filesC : list File) (w : World) :
  NoDup (ID <$> filesC) → seenFilter filesC w = (filesC, w).
Proof.
  intros Hnd. apply seenFilter_loop_distinct; [done|].
  intros f _. apply lookup_empty.
Qed.

Lemma seenFilter_distinct_input_witness :
  NoDup (ID <$> [file_a; file_b; file_c])
  ∧ seenFilter [file_a; file_b; file_c] w_out = ([file_a; file_b; file_c], w_out).
Proof.
  assert (Hnd : NoDup (ID <$> [file_a; file_b; file_c])).
  { apply (bool_decide_unpack _). vm_compute. exact I. }
  split; [exact Hnd|].
  exact (seenFilter_distinct_input [file_a; file_b; file_c] w_out Hnd).
Defined.

(** X9: a [seenFilter] stage is idempotent on streams: filtering what a
    stage has sent sends it again unchanged and logs nothing. *)
Theorem seenFilter_idempotent (filesC : list File) (w w' : World) :
  seenFilter (fst (seenFilter filesC w)) w' = (fst (seenFilter filesC w), w').
Proof.
  apply seenFilter_loop_distinct.
  - unfold seenFilter. by destruct (seenFilter_loop_output filesC ∅ w) as (Hnd & _).
  - intros f _. apply lookup_empty.
Qed.

(** * Further properties of the download operation and the worker *)

(** X10: [SaveFileTo] changes no path but its destination, takes at most
    one permit, and only adds to the trace. *)
Theorem SaveFileTo_touches_only_destination
    (env : Env) (dir : string) (f : File) (w : World) :
  (∀ x, x ≠ Join env dir (filename f) →
        fs (snd (SaveFileTo env dir f w)) !! x = fs w !! x)
  ∧ (waits w ≤ waits (snd (SaveFileTo env dir f w)) ≤ S (waits w))%nat
  ∧ ∃ t, trace (snd (SaveFileTo env dir f w)) = trace w ++ t.
Proof.
  pose proof (SaveFileTo_cases env dir f w) as H.
  destruct (SaveFileTo env dir f w) as [[n err] w']. simpl.
  destruct (fst (os_Create env _ w)) as [e|].
  - destruct H as (_ & _ & -> & -> & ->). split; [done|]. split; [lia|eauto].
  - destruct H as (-> & H).
    split; [intros x Hx; by rewrite lookup_insert_ne|].
    destruct (snd (remote env _)) as [e|].
    + destruct H as (_ & _ & -> & ->). split; [lia|eauto].
    + destruct H as (_ & _ & -> & ->). split; [lia|eauto].
Qed.

(** X11: when the destination already holds a regular file and the
    operating system lets it be opened, [SaveFileTo] truncates it: what
    the file held before is gone and it holds the bytes the transfer
    delivered, also when the transfer fails part-way. *)
Theorem SaveFileTo_truncates_existing_file
    (env : Env) (dir : string) (f : File) (w : World) (old : list Byte.byte) :
  fs w !! Join env dir (filename f) = Some (RegFile old) →
  create_fault env (Join env dir (filename f)) = None →
  fs (snd (SaveFileTo env dir f w)) !! Join env dir (filename f)
  = Some (RegFile (fst (remote env (URLPrivateDownload f)))).
Proof.
  intros Hold Hfault.
  pose proof (SaveFileTo_cases env dir f w) as H.
  assert (Hc : fst (os_Create env (Join env dir (filename f)) w) = None).
  { unfold os_Create, bind, emit, set_node, ret. simpl. by rewrite Hold, Hfault. }
  destruct (SaveFileTo env dir f w) as [[n err] w']. simpl.
  rewrite Hc in H. destruct H as (-> & _). by rewrite lookup_insert_eq.
Qed.

Lemma SaveFileTo_truncates_existing_file_witness :
  fs w_downloaded !! Join env_reset "out" (filename file_a)
  = Some (RegFile [Byte.x6f; Byte.x6c; Byte.x64; Byte.x31])
  ∧ create_fault env_reset (Join env_reset "out" (filename file_a)) = None
  ∧ fst (SaveFileTo env_reset "out" file_a w_downloaded)
    = (0, Some (WithStack (ClientError "connection reset")))
  ∧ fs (snd (SaveFileTo env_reset "out" file_a w_downloaded))
      !! Join env_reset "out" (filename file_a)
    = Some (RegFile (fst (remote env_reset (URLPrivateDownload file_a)))).
Proof.
  split; [reflexivity|]. split; [reflexivity|]. split; [reflexivity|].
  exact (SaveFileTo_truncates_existing_file env_reset "out" file_a w_downloaded
           [Byte.x6f; Byte.x6c; Byte.x64; Byte.x31] eq_refl eq_refl).
Defined.

Lemma worker_body_frame env dir f w :
  (∀ x, x ≠ Join env dir (filename f) →
        fs (snd (worker_body env dir f w)) !! x = fs w !! x)
  ∧ (waits w ≤ waits (snd (worker_body env dir f w)) ≤ S (waits w))%nat.
Proof.
  destruct (worker_body_spec env dir f w) as (-> & -> & _).
  pose proof (SaveFileTo_cases env dir f
                (snd (log_Printf (LogSaving (filename f) (Size f)) w))) as H.
  destruct (SaveFileTo env dir f _) as [[n err] w1]. simpl in *.
  destruct (fst (os_Create env _ _)) as [e|].
  - destruct H as (_ & _ & -> & -> & _). split; [done|lia].
  - destruct H as (-> & H).
    split; [intros x Hx; by rewrite lookup_insert_ne|].
    destruct (snd (remote env _)) as [e|].
    + destruct H as (_ & _ & -> & _). lia.
    + destruct H as (_ & _ & -> & _). lia.
Qed.

(** X12: a worker changes no path but the destinations of the items of
    its queue, and takes at most one permit per item. *)
Theorem worker_touches_only_destinations
    (env : Env) (dir : string) (filesC : list File) (w : World) (x : string) :
  x ∉ map (λ f, Join env dir (filename f)) filesC →
  fs (snd (worker env dir filesC w)) !! x = fs w !! x
  ∧ (waits w ≤ waits (snd (worker env dir filesC w)) ≤ waits w + length filesC)%nat.
Proof.
  revert w. induction filesC as [|f rest IH]; intros w Hx.
  - simpl. split; [done|lia].
  - rewrite worker_cons. simpl in Hx. apply not_elem_of_cons in Hx as [Hne Hx].
    destruct (IH (snd (worker_body env dir f w)) Hx) as [-> Hw].
    destruct (worker_body_frame env dir f w) as [Hfs Hw1].
    split; [by apply Hfs|]. simpl. lia.
Qed.

Lemma worker_touches_only_destinations_witness :
  ("out/F1-a.txt" ∉ map (λ f, Join env_ok "out" (filename f)) [file_b; file_c])
  ∧ fs (snd (worker env_ok "out" [file_b; file_c] w_downloaded)) !! "out/F1-a.txt"
    = fs w_downloaded !! "out/F1-a.txt"
  ∧ (waits w_downloaded
     ≤ waits (snd (worker env_ok "out" [file_b; file_c] w_downloaded))
     ≤ waits w_downloaded + length [file_b; file_c])%nat.
Proof.
  assert (Hx : "out/F1-a.txt"
               ∉ map (λ f, Join env_ok "out" (filename f)) [file_b; file_c]).
  { apply (bool_decide_unpack _). vm_compute. exact I. }
  split; [exact Hx|].
  exact (worker_touches_only_destinations env_ok "out" [file_b; file_c] w_downloaded
           "out/F1-a.txt" Hx).
Defined.

(** X13: when [SaveFileTo] fails, the worker writes the error line and
    then, all the same, the line "file ... saved: 0 bytes written"; between
    its "saving" line and these two it logs nothing. *)
Theorem worker_logs_saved_after_failure
    (env : Env) (dir : string) (f : File) (w : World) (e : error) :
  snd (fst (SaveFileTo env dir f
              (snd (log_Printf (LogSaving (filename f) (Size f)) w)))) = Some e →
  ∃ calls,
    trace (snd (worker_body env dir f w))
    = trace w ++ [EvLog (LogSaving (filename f) (Size f))] ++ calls
      ++ [EvLog (LogErrorSaving (filename f) e); EvLog (LogSaved (filename f) 0)]
    ∧ ∀ l, EvLog l ∉ calls.
Proof.
  intros Hfail.
  destruct (worker_body_spec env dir f w) as (_ & _ & ->).
  pose proof (SaveFileTo_cases env dir f
                (snd (log_Printf (LogSaving (filename f) (Size f)) w))) as H.
  destruct (SaveFileTo env dir f _) as [[n err] w1]. simpl in *. subst err.
  destruct (fst (os_Create env _ _)) as [e'|].
  - destruct H as (-> & _ & _ & _ & ->).
    exists [EvCreate (Join env dir (filename f))].
    split; [by rewrite <- !app_assoc|].
    intros l [?|[]%elem_of_nil]%elem_of_cons. done.
  - destruct H as (_ & H). destruct (snd (remote env _)) as [e'|].
    + destruct H as (-> & _ & _ & ->).
      eexists [_; _; _]. split; [by rewrite <- !app_assoc|].
      intros l Hin.
      repeat (apply elem_of_cons in Hin as [Hin|Hin]; [discriminate Hin|]).
      by apply elem_of_nil in Hin.
    + by destruct H as (_ & ? & _).
Qed.

Lemma worker_logs_saved_after_failure_witness :
  snd (fst (SaveFileTo env_denied "out" file_a
              (snd (log_Printf (LogSaving (filename file_a) (Size file_a)) w_out))))
  = Some (PathError "open" "out/F1-a.txt" EACCES)
  ∧ ∃ calls,
      trace (snd (worker_body env_denied "out" file_a w_out))
      = trace w_out ++ [EvLog (LogSaving (filename file_a) (Size file_a))] ++ calls
        ++ [EvLog (LogErrorSaving (filename file_a)
                     (PathError "open" "out/F1-a.txt" EACCES));
            EvLog (LogSaved (filename file_a) 0)]
      ∧ ∀ l, EvLog l ∉ calls.
Proof.
  split; [reflexivity|].
  exact (worker_logs_saved_after_failure env_denied "out" file_a w_out
           (PathError "open" "out/F1-a.txt" EACCES) eq_refl).
Defined.

(** * Further properties of file names and of extraction *)

Lemma has_hyphen_split (s1 s2 t1 t2 : string) :
  has_hyphen s1 = false → has_hyphen s2 = false →
  (s1 ++ "-" ++ t1 = s2 ++ "-" ++ t2)%string →
  s1 = s2 ∧ t1 = t2.
Proof.
  change "-"%string with (String hyphen EmptyString).
  revert s2. induction s1 as [|c s1 IH]; intros [|d s2] H1 H2 Heq; simpl in *.
  - by inversion Heq.
  - inversion Heq; subst. by rewrite Ascii.eqb_refl in H2.
  - inversion Heq; subst. by rewrite Ascii.eqb_refl in H1.
  - inversion Heq as [[Hc Ht]]. subst d.
    destruct (Ascii.eqb c hyphen); [done|].
    destruct (IH s2 H1 H2 Ht) as [-> ->]. done.
Qed.

(** X14: [filename] tells attachments apart when their IDs hold no
    hyphen: equal file names then mean equal IDs and equal names. *)
Theorem filename_injective_without_hyphen (f g : File) :
  has_hyphen (ID f) = false →
  has_hyphen (ID g) = false →
  filename f = filename g →
  ID f = ID g ∧ Name f = Name g.
Proof. unfold filename. apply has_hyphen_split. Qed.

Lemma filename_injective_without_hyphen_witness :
  has_hyphen (ID file_a) = false
  ∧ has_hyphen (ID file_a_mirror) = false
  ∧ filename file_a = filename file_a_mirror
  ∧ ID file_a = ID file_a_mirror
  ∧ Name file_a = Name file_a_mirror.
Proof.
  split; [reflexivity|]. split; [reflexivity|]. split; [reflexivity|].
  exact (filename_injective_without_hyphen file_a file_a_mirror
           eq_refl eq_refl eq_refl).
Defined.

(** The condition of the theorem above is needed. *)
Example filename_collision :
  ID file_x1 ≠ ID file_x2 ∧ filename file_x1 = filename file_x2.
Proof. split; [discriminate | reflexivity]. Qed.

Lemma filesFromMessages_spec (m : list Message) :
  filesFromMessages m = extraction_order m.
Proof. unfold filesFromMessages. by rewrite filesFromMessages_loop_app. Qed.

(** X15: extraction works message by message: the attachments of two
    message lists put together are those of the first followed by those of
    the second, so a channel can be extracted in pieces. *)
Theorem filesFromMessages_app (m1 m2 : list Message) :
  filesFromMessages (m1 ++ m2) = filesFromMessages m1 ++ filesFromMessages m2.
Proof.
  rewrite !filesFromMessages_spec. unfold extraction_order.
  by rewrite map_app, concat_app.
Qed.

(** X16: extraction goes one level down and no further: the replies of a
    reply are never looked at, so what they carry is not extracted. *)
Theorem filesFromMessages_one_level (m : list Message) :
  filesFromMessages (map prune m) = filesFromMessages m
  ∧ filesFromMessages [nested_message] = [file_a; file_b].
Proof.
  split; [|reflexivity].
  rewrite !filesFromMessages_spec. unfold extraction_order. f_equal.
  rewrite map_map. apply map_ext. intros mi.
  unfold message_attachments. simpl. f_equal. f_equal.
  rewrite map_map. by apply map_ext.
Qed.

(** * main.go: trunc *)

Lemma substring_0_length (s : string) : ∀ n : nat,
  (n ≤ String.length s)%nat →
  String.length (String.substring 0 n s) = n
  ∧ ∃ rest, s = (String.substring 0 n s ++ rest)%string.
Proof.
  induction s as [|c s IH]; intros [|n] Hn; simpl in *;
    try (split; [done | by eexists]); [lia|].
  destruct (IH n) as [Hlen [rest Hrest]]; [lia|].
  split; [by rewrite Hlen|]. exists rest. by rewrite Hrest at 1.
Qed.

(** X17: [trunc s n] is the prefix of [s] that is [n] bytes long, or [s]
    itself when [s] has no more than [n] bytes; its length is the smaller
    of the two. *)
Theorem trunc_prefix (s : string) (n : N) :
  N.of_nat (String.length (trunc s n)) = N.min (N.of_nat (String.length s)) n
  ∧ (∃ rest, s = (trunc s n ++ rest)%string)
  ∧ (trunc s n = s ↔ (N.of_nat (String.length s) ≤ n)%N).
Proof.
  unfold trunc. destruct (N.leb_spec (N.of_nat (String.length s)) n) as [Hle|Hgt].
  - split; [lia|]. split; [|done]. exists EmptyString.
    clear. induction s as [|c s IH]; [done|].
    change (String c s = String c (s ++ EmptyString)%string). by rewrite <- IH.
  - destruct (substring_0_length s (N.to_nat n)) as [Hlen Hrest]; [lia|].
    split; [rewrite Hlen; lia|]. split; [done|]. split; [|lia].
    intros Heq. rewrite Heq in Hlen. lia.
Qed.

Lemma substring_0_twice (s : string) : ∀ n m : nat,
  (m ≤ n)%nat →
  String.substring 0 m (String.substring 0 n s) = String.substring 0 m s.
Proof.
  induction s as [|c s IH]; intros [|n] [|m] Hmn; simpl; try done; try lia.
  rewrite IH; [done|lia].
Qed.

(** X18: truncating twice is truncating once to the smaller bound; in
    particular [trunc] is idempotent. *)
Theorem trunc_trunc (s : string) (n m : N) :
  trunc (trunc s n) m = trunc s (N.min n m).
Proof.
  destruct (trunc_prefix s n) as (Hlen & _ & _).
  unfold trunc at 1. rewrite Hlen.
  destruct (N.leb_spec (N.min (N.of_nat (String.length s)) n) m) as [Hle|Hgt].
  - unfold trunc.
    destruct (N.leb_spec (N.of_nat (String.length s)) n) as [H1|H1];
      destruct (N.leb_spec (N.of_nat (String.length s)) (N.min n m)) as [H2|H2];
      try done; try lia.
    by replace (N.min n m) with n by lia.
  - unfold trunc.
    destruct (N.leb_spec (N.of_nat (String.length s)) n) as [H1|H1];
      destruct (N.leb_spec (N.of_nat (String.length s)) (N.min n m)) as [H2|H2];
      try lia.
    + by replace (N.min n m) with m by lia.
    + replace (N.min n m) with m by lia.
      apply substring_0_twice. lia.
Qed.

(** * interactive.go: fileSelector and surveyEmojis *)

Lemma dash_if_empty_nonempty output : dash_if_empty output ≠ "".
Proof. unfold dash_if_empty. by destruct (decide (output = "")). Qed.

(** What a successful [fileSelector_loop] has used up. *)
Lemma fileSelector_loop_result files answers : ∀ yesno name answers1 yesno1,
  fileSelector_loop files answers yesno = Some ((name, None), (answers1, yesno1)) →
  ∃ before answer,
    answers = before ++ inl answer :: answers1
    ∧ name = dash_if_empty answer
    ∧ Forall (λ a, ∃ s, a = inl s ∧ os_Stat_ok files s = true) before
    ∧ if os_Stat_ok files answer
      then yesno = replicate (length before) (false, None) ++ (true, None) :: yesno1
      else yesno = replicate (length before) (false, None) ++ yesno1.
Proof.
  induction answers as [|[output|err] answers IH]; intros yesno name answers1 yesno1;
    simpl; [done| |done].
  destruct (os_Stat_ok files output) eqn:Hstat; simpl.
  - destruct yesno as [|[overwrite [err|]] yesno]; [done|done|].
    destruct overwrite.
    + intros [= <- <- <-]. exists [], output. simpl. rewrite Hstat. by repeat split.
    + intros Hrest. destruct (IH _ _ _ _ Hrest) as (before & answer & -> & -> & Hall & Hyn).
      exists (inl output :: before), answer. simpl.
      split; [done|]. split; [done|]. split; [constructor; eauto|].
      destruct (os_Stat_ok files answer); by rewrite Hyn.
  - intros [= <- <- <-]. exists [], output. simpl. rewrite Hstat. by repeat split.
Qed.

(** X19: when [fileSelector] returns a name, the name is not empty. The
    answer it took is the first that either names nothing that exists or
    was followed by a yes to "Overwrite?"; every answer before it named
    something that exists and was declined. If that answer is empty, the
    name returned is "-" and no question was asked for it. Otherwise the
    name returned is the answer itself, and if it names something that
    exists the user agreed to overwrite it. *)
Theorem fileSelector_result
    (files : gmap string node) (c : Console) (name : string) (c' : Console) :
  fileSelector files c = Some ((name, None), c') →
  name ≠ ""
  ∧ printed c' = printed c
  ∧ ∃ before answer,
      typed c = before ++ inl answer :: typed c'
      ∧ Forall (λ a, ∃ s, a = inl s ∧ os_Stat_ok files s = true) before
      ∧ if decide (answer = "")
        then name = "-"
             ∧ confirms c = replicate (length before) (false, None) ++ confirms c'
        else name = answer
             ∧ if os_Stat_ok files name
               then confirms c
                    = replicate (length before) (false, None)
                      ++ (true, None) :: confirms c'
               else confirms c
                    = replicate (length before) (false, None) ++ confirms c'.
Proof.
  unfold fileSelector.
  destruct (fileSelector_loop files (typed c) (confirms c))
    as [[[name0 err0] [answers1 yesno1]]|] eqn:Hloop; [|done].
  intros [= -> -> <-]. simpl.
  destruct (fileSelector_loop_result _ _ _ _ _ _ Hloop)
    as (before & answer & Ht & -> & Hall & Hyn).
  split; [apply dash_if_empty_nonempty|]. split; [done|].
  exists before, answer. split; [done|]. split; [done|].
  unfold dash_if_empty. destruct (decide (answer = "")) as [->|Hne].
  - split; [done|]. unfold os_Stat_ok in Hyn. by destruct (decide ("" = "")).
  - split; [done|]. exact Hyn.
Qed.

Lemma fileSelector_result_witness :
  fileSelector (fs w_downloaded) console_overwrite
  = Some (("out/F1-a.txt", None), mkConsole [inl "unused"] [] [])
  ∧ os_Stat_ok (fs w_downloaded) "out/F1-a.txt" = true
  ∧ "out/F1-a.txt" ≠ ""
  ∧ ∃ before answer,
      typed console_overwrite = before ++ inl answer :: [inl "unused"]
      ∧ Forall (λ a, ∃ s, a = inl s ∧ os_Stat_ok (fs w_downloaded) s = true) before
      ∧ if decide (answer = "")
        then "out/F1-a.txt" = "-"
             ∧ confirms console_overwrite = replicate (length before) (false, None) ++ []
        else "out/F1-a.txt" = answer
             ∧ if os_Stat_ok (fs w_downloaded) "out/F1-a.txt"
               then confirms console_overwrite
                    = replicate (length before) (false, None) ++ (true, None) :: []
               else confirms console_overwrite
                    = replicate (length before) (false, None) ++ [].
Proof.
  assert (H : fileSelector (fs w_downloaded) console_overwrite
              = Some (("out/F1-a.txt", None), mkConsole [inl "unused"] [] []))
    by (vm_compute; reflexivity).
  split; [exact H|]. split; [reflexivity|].
  destruct (fileSelector_result (fs w_downloaded) console_overwrite "out/F1-a.txt" _ H)
    as (H1 & _ & H3).
  split; [exact H1 | exact H3].
Defined.

(** The empty answer is not checked against the files: with a file named
    "-" present, "-" is returned and no question is asked. *)
Example fileSelector_empty_answer :
  os_Stat_ok files_dash "-" = true
  ∧ fileSelector files_dash console_empty
    = Some (("-", None), mkConsole [] [(true, None)] []).
Proof. split; vm_compute; reflexivity. Qed.

(** [fileSelector] uses up at least one text answer, keeps what was
    printed, and returns an empty name with an error. *)
Lemma fileSelector_loop_consumes files answers : ∀ yesno r answers1 yesno1,
  fileSelector_loop files answers yesno = Some (r, (answers1, yesno1)) →
  (length answers1 < length answers)%nat
  ∧ (snd r ≠ None → fst r = "").
Proof.
  induction answers as [|[output|err] answers IH]; intros yesno r answers1 yesno1;
    simpl; [done| |].
  - destruct (os_Stat_ok files output); simpl.
    + destruct yesno as [|[overwrite [err|]] yesno]; [done| |].
      * intros [= <- <- <-]. split; [lia|done].
      * destruct overwrite.
        -- intros [= <- <- <-]. split; [lia|done].
        -- intros Hrest. destruct (IH _ _ _ _ Hrest). split; [lia|done].
    + intros [= <- <- <-]. split; [lia|done].
  - intros [= <- <- <-]. split; [lia|done].
Qed.

(** What [surveyEmojis_loop] returns without an error is a name other
    than "-" and "". *)
Lemma surveyEmojis_loop_result fuel files : ∀ c base c1,
  surveyEmojis_loop fuel files c = Some ((base, None), c1) →
  base ≠ "-" ∧ base ≠ "".
Proof.
  induction fuel as [|fuel IH]; intros c base c1; simpl; [done|].
  destruct (fileSelector files c) as [[[b [e|]] c2]|]; [done| |done].
  destruct (bool_decide_reflect (b ≠ "-" ∧ b ≠ "")) as [Hok|_].
  - by intros [= <- <-].
  - apply IH.
Qed.

(** More fuel than text answers changes nothing. *)
Lemma surveyEmojis_loop_fuel files : ∀ fuel fuel' c,
  (length (typed c) < fuel)%nat → (length (typed c) < fuel')%nat →
  surveyEmojis_loop fuel files c = surveyEmojis_loop fuel' files c.
Proof.
  induction fuel as [|fuel IH]; intros [|fuel'] c H1 H2; try lia. simpl.
  unfold fileSelector.
  destruct (fileSelector_loop files (typed c) (confirms c))
    as [[[b [e|]] [answers1 yesno1]]|] eqn:Hloop; [done| |done].
  destruct (bool_decide _); [done|].
  destruct (fileSelector_loop_consumes _ _ _ _ _ _ Hloop) as [Hlt _].
  apply IH; simpl; lia.
Qed.

(** X20: whatever the user answers, [surveyEmojis] switches the emoji
    dump on, also when it returns an error; when it returns without error
    the base name it has stored is neither "-" nor empty, and at no time
    does it store such a name. *)
Theorem surveyEmojis_result
    (files : gmap string node) (p : params) (c : Console)
    (p' : params) (err : option error) (c' : Console) :
  surveyEmojis files p c = Some ((p', err), c') →
  emoji_Enabled p' = true
  ∧ (output_Base p' = output_Base p
     ∨ (output_Base p' ≠ "-" ∧ output_Base p' ≠ ""))
  ∧ (err = None → output_Base p' ≠ "-" ∧ output_Base p' ≠ "").
Proof.
  unfold surveyEmojis.
  destruct (surveyEmojis_loop (S (length (typed c))) files c)
    as [[[base [e|]] c1]|] eqn:Hloop; [|intros|done].
  - intros [= <- <- <-]. simpl. split; [done|]. split; [by left|done].
  - destruct (confirms c1) as [|[fail e] yesno1]; [done|].
    injection H as <- <- <-. simpl.
    pose proof (surveyEmojis_loop_result _ _ _ _ _ Hloop) as Hbase.
    split; [done|]. split; [by right|done].
Qed.

Lemma surveyEmojis_result_witness :
  surveyEmojis (fs w_downloaded) (mkParams false false "") console_sample
  = Some ((mkParams true true "emojis.zip", None),
          mkConsole [] [] ["invalid filename"])
  ∧ emoji_Enabled (mkParams true true "emojis.zip") = true
  ∧ (None = @None error →
     output_Base (mkParams true true "emojis.zip") ≠ "-"
     ∧ output_Base (mkParams true true "emojis.zip") ≠ "").
Proof.
  assert (H : surveyEmojis (fs w_downloaded) (mkParams false false "") console_sample
              = Some ((mkParams true true "emojis.zip", None),
                      mkConsole [] [] ["invalid filename"]))
    by (vm_compute; reflexivity).
  split; [exact H|].
  destruct (surveyEmojis_result (fs w_downloaded) (mkParams false false "")
              console_sample _ _ _ H) as (H1 & _ & H3).
  split; [exact H1 | exact H3].
Defined.

(** * interactive.go: questConversationList *)

(** X21: what [questConversationList] accepts. When it returns a list,
    the answer it took is either empty or "all" in any case, giving all
    conversations, or it splits at hyphens into exactly two parts that both
    parse as dates, the first not after the second, giving that date
    filter. Every answer before it was turned down with one printed line.
    So an answer without a hyphen other than these two, such as a
    conversation ID, and an answer with two or more hyphens are never
    taken. *)
Theorem questConversationList_accepts
    {Time : Type} (ToLower TrimSpace : string → string)
    (Parse : string → option Time) (After : Time → Time → bool)
    (answers : list (string + error)) (out : list string)
    (el : EntityList Time) (rest : list (string + error)) (out' : list string) :
  questConversationList ToLower TrimSpace Parse After answers out
  = Some ((Some el, None), (rest, out')) →
  ∃ before input,
    answers = before ++ inl input :: rest
    ∧ length out' = (length out + length before)%nat
    ∧ Forall (λ a, ∃ s, a = inl s ∧ s ≠ "" ∧ ToLower s ≠ "all") before
    ∧ (((input = "" ∨ ToLower input = "all") ∧ el = mkEntityList true None)
       ∨ (∃ first second startDate endDate,
            split_hyphen input = [first; second]
            ∧ Parse (TrimSpace first) = Some startDate
            ∧ Parse (TrimSpace second) = Some endDate
            ∧ After startDate endDate = false
            ∧ el = mkEntityList false (Some (startDate, endDate)))).
Proof.
  revert out. induction answers as [|[inputStr|err] answers IH]; intros out;
    simpl; [done| |done].
  assert (Hturn : ∀ line,
             questConversationList ToLower TrimSpace Parse After answers
               (out ++ [line]) = Some ((Some el, None), (rest, out')) →
             ¬ (inputStr = "" ∨ ToLower inputStr = "all") →
             ∃ before input,
               inl inputStr :: answers = before ++ inl input :: rest
               ∧ length out' = (length out + length before)%nat
               ∧ Forall (λ a, ∃ s, a = inl s ∧ s ≠ "" ∧ ToLower s ≠ "all") before
               ∧ (((input = "" ∨ ToLower input = "all") ∧ el = mkEntityList true None)
                  ∨ (∃ first second startDate endDate,
                       split_hyphen input = [first; second]
                       ∧ Parse (TrimSpace first) = Some startDate
                       ∧ Parse (TrimSpace second) = Some endDate
                       ∧ After startDate endDate = false
                       ∧ el = mkEntityList false (Some (startDate, endDate))))).
  { intros line Hrest Hno.
    destruct (IH _ Hrest) as (before & input & -> & Hlen & Hall & Hcase).
    exists (inl inputStr :: before), input. split; [done|].
    split; [rewrite Hlen, length_app; simpl; lia|].
    split; [|done]. constructor; [|done]. exists inputStr. tauto. }
  destruct (bool_decide_reflect (inputStr = "" ∨ ToLower inputStr = "all")) as [Hall|Hno].
  - intros [= <- <- <-]. exists [], inputStr. simpl.
    split; [done|]. split; [lia|]. split; [constructor|]. by left.
  - destruct (has_hyphen inputStr); [|intros H; by eapply Hturn].
    destruct (split_hyphen inputStr) as [|first [|second [|third parts]]] eqn:Hsplit;
      try (intros H; by eapply Hturn).
    destruct (Parse (TrimSpace first)) as [startDate|] eqn:Hs;
      [|intros H; by eapply Hturn].
    destruct (Parse (TrimSpace second)) as [endDate|] eqn:He;
      [|intros H; by eapply Hturn].
    destruct (After startDate endDate) eqn:Hafter; [intros H; by eapply Hturn|].
    intros [= <- <- <-]. exists [], inputStr. simpl.
    split; [done|]. split; [lia|]. split; [constructor|].
    right. by exists first, second, startDate, endDate.
Qed.

Lemma questConversationList_accepts_witness :
  questConversationList lower_ascii id parse_length after_nat answers_sample []
  = Some ((Some (mkEntityList false (Some (6%nat, 8%nat))), None),
          ([inl "later"],
           ["Invalid input. Please enter a valid date range or 'ALL'.";
            "Invalid date range format: 2023-01-01 - 2023-02-01";
            "Invalid date range: 12/31/23-1/1/23"]))
  ∧ ∃ before input,
      answers_sample = before ++ inl input :: [inl "later"]
      ∧ length before = 3%nat
      ∧ Forall (λ a, ∃ s, a = inl s ∧ s ≠ "" ∧ lower_ascii s ≠ "all") before.
Proof.
  assert (H : questConversationList lower_ascii id parse_length after_nat
                answers_sample []
              = Some ((Some (mkEntityList false (Some (6%nat, 8%nat))), None),
                      ([inl "later"],
                       ["Invalid input. Please enter a valid date range or 'ALL'.";
                        "Invalid date range format: 2023-01-01 - 2023-02-01";
                        "Invalid date range: 12/31/23-1/1/23"])))
    by (vm_compute; reflexivity).
  split; [exact H|].
  destruct (questConversationList_accepts lower_ascii id parse_length after_nat
              answers_sample [] _ _ _ H)
    as (before & input & Hans & Hlen & Hall & _).
  exists before, input. split; [exact Hans|]. split; [|exact Hall].
  simpl in Hlen. symmetry. exact Hlen.
Defined.

(** * A pool of one worker *)

(** What [seenFilter_loop] sends does not depend on the world. *)
Lemma seenFilter_loop_sent filesC : ∀ seen w,
  fst (seenFilter_loop seen filesC w) = sent_by seen filesC.
Proof.
  unfold sent_by. induction filesC as [|f rest IH]; intros seen w; [done|].
  rewrite !seenFilter_loop_cons. destruct (seen !! ID f).
  - by rewrite !IH.
  - simpl. by rewrite !IH.
Qed.

Lemma sent_by_cons seen f rest :
  sent_by seen (f :: rest)
  = match seen !! ID f with
    | Some _ => sent_by seen rest
    | None => f :: sent_by (<[ID f := true]> seen) rest
    end.
Proof.
  unfold sent_by at 1. rewrite seenFilter_loop_cons.
  destruct (seen !! ID f); simpl; by rewrite seenFilter_loop_sent.
Qed.

Lemma exec_single_inv env opts dir toDownload a p p' :
  exec env opts dir a p = Some p' →
  single_inv toDownload p → single_inv toDownload p'.
Proof.
  unfold single_inv. intros Hex Hinv. destruct a; simpl in Hex.
  - destruct (p_spawner p) as [[i|i|]|]; try done.
    destruct (bool_decide _); [|done]. by injection Hex as <-.
  - destruct (p_spawner p) as [[i|i|]|]; try done. injection Hex as <-. simpl.
    destruct (p_workers p) as [|wk [|wk2 l]]; simpl; done.
  - destruct (p_spawner p) as [[i|i|]|]; try done.
    destruct (bool_decide _); [done|]. by injection Hex as <-.
  - destruct (p_workers p) as [|wk [|wk2 l]] eqn:Hl; [done| |].
    + destruct k as [|k]; [|done]. simpl in Hex.
      destruct wk as [[] fpc seen got]; try done.
      injection Hex as <-. simpl. rewrite ?Hl. simpl in *.
      destruct Hinv as [-> ->]. done.
    + destruct ((wk :: wk2 :: l) !! k) as [[[] ? ? ?]|] eqn:Hk; try done.
      injection Hex as <-. simpl. rewrite ?Hl.
      by destruct k as [|[|k]].
  - destruct (p_workers p) as [|wk [|wk2 l]] eqn:Hl; [done| |].
    + destruct k as [|k]; [|done]. simpl in Hex.
      destruct wk as [pc fpc seen got]. destruct fpc; try (by destruct pc).
      destruct (p_toDownload p) as [|f rest] eqn:Hq.
      * assert (p' = set_worker 0 (mkWorker pc FClosed seen got) p ∧ pc ≠ WStart)
          as [-> Hpc].
        { destruct pc; try done; by injection Hex as <-. }
        simpl. rewrite ?Hl, ?Hq. simpl in *. by destruct pc.
      * unfold seenFilter_body in Hex. simpl in Hinv. rewrite sent_by_cons in Hinv.
        destruct (seen !! ID f) as [b|] eqn:Hf; simpl in Hex;
          destruct pc; try done; injection Hex as <-; simpl; rewrite ?Hl; simpl;
          done.
    + destruct ((wk :: wk2 :: l) !! k) as [[pc fpc seen got]|] eqn:Hk; [|done].
      destruct fpc; try (by destruct pc).
      destruct (p_toDownload p) as [|f rest].
      * assert (p_workers p' = <[k := mkWorker pc FClosed seen got]> (wk :: wk2 :: l))
          as ->.
        { destruct pc; try done; injection Hex as <-; simpl; by rewrite ?Hl. }
        by destruct k as [|[|k]].
      * destruct (seenFilter_body seen f (p_world p)) as [[seen1 sent] w1].
        assert (∃ wk', p_workers p' = <[k := wk']> (wk :: wk2 :: l)) as [wk' ->].
        { destruct pc; try done; injection Hex as <-; simpl; rewrite ?Hl; eauto. }
        by destruct k as [|[|k]].
  - destruct (p_workers p) as [|wk [|wk2 l]] eqn:Hl; [done| |].
    + destruct k as [|k]; [|done]. simpl in Hex.
      destruct wk as [[] [] seen got]; try done.
      destruct (worker_body env dir f (p_world p)) as [[] w1].
      injection Hex as <-. simpl. rewrite ?Hl. simpl in *.
      by rewrite <- app_assoc.
    + destruct ((wk :: wk2 :: l) !! k) as [[[] [] seen got]|] eqn:Hk; try done.
      destruct (worker_body env dir f (p_world p)) as [[] w1].
      injection Hex as <-. simpl. rewrite ?Hl. by destruct k as [|[|k]].
  - destruct (p_workers p) as [|wk [|wk2 l]] eqn:Hl; [done| |].
    + destruct k as [|k]; [|done]. simpl in Hex.
      destruct wk as [[] [] seen got]; try done.
      injection Hex as <-. simpl. by rewrite ?Hl.
    + destruct ((wk :: wk2 :: l) !! k) as [[[] [] seen got]|] eqn:Hk; try done.
      injection Hex as <-. simpl. rewrite ?Hl. by destruct k as [|[|k]].
  - destruct (p_workers p) as [|wk [|wk2 l]] eqn:Hl; [done| |].
    + destruct k as [|k]; [|done]. simpl in Hex.
      destruct wk as [[] fpc seen got]; try done.
      injection Hex as <-. simpl. by rewrite ?Hl.
    + destruct ((wk :: wk2 :: l) !! k) as [[[] fpc seen got]|] eqn:Hk; try done.
      injection Hex as <-. simpl. rewrite ?Hl. by destruct k as [|[|k]].
  - destruct (p_sentinel p) as [[]|]; try done.
    destruct (bool_decide _); [|done]. by injection Hex as <-.
  - destruct (p_sentinel p) as [[]|]; try done. by injection Hex as <-.
Qed.

Lemma run_single_inv env opts dir toDownload sched : ∀ p p',
  run env opts dir sched p = Some p' →
  single_inv toDownload p → single_inv toDownload p'.
Proof.
  induction sched as [|a rest IH]; intros p p'; simpl.
  - by intros [= <-].
  - destruct (exec env opts dir a p) as [p1|] eqn:Hex; [|done].
    intros Hrun Hinv. eapply IH; [exact Hrun|]. by eapply exec_single_inv.
Qed.

Lemma fileDownloader_single_inv env opts dir toDownload w :
  single_inv toDownload (fst (fileDownloader env opts dir toDownload w)).
Proof.
  rewrite fileDownloader_state. unfold single_inv.
  destruct (dumpfiles opts); [|done].
  by destruct (snd (fileDownloader env opts dir toDownload w)).
Qed.

(** X22: with one worker the pipeline does what one [seenFilter] stage
    followed by one worker does: at every moment of every run the items
    the worker has received are a prefix of what [seenFilter] sends for
    the whole input (first occurrences, in the order of arrival), and when
    the run has come to its end they are all of it. *)
Theorem fileDownloader_single_worker
    (env : Env) (opts : Options) (dir : string) (toDownload : list File) (w : World)
    (sched : list action) (p : Pool) :
  workers opts = 1 →
  dumpfiles opts = true →
  snd (fileDownloader env opts dir toDownload w) = None →
  run env opts dir sched (fst (fileDownloader env opts dir toDownload w)) = Some p →
  (∀ wk, wk ∈ p_workers p → w_got wk `prefix_of` fst (seenFilter toDownload w))
  ∧ ((∀ a, exec env opts dir a p = None) →
     map w_got (p_workers p) = [fst (seenFilter toDownload w)]).
Proof.
  intros Hone Hon Herr Hrun.
  pose proof (run_single_inv _ _ _ _ _ _ _ Hrun
                (fileDownloader_single_inv env opts dir toDownload w)) as Hsingle.
  pose proof (run_size_inv _ _ _ _ _ _ Hrun
                (fileDownloader_size_inv env opts dir toDownload w)) as Hsize.
  pose proof (size_inv_bound _ _ Hsize) as Hbound. rewrite Hone in Hbound.
  unfold seenFilter. rewrite seenFilter_loop_sent.
  unfold single_inv in Hsingle. split.
  - intros wk Hwk.
    destruct (p_workers p) as [|wk0 [|wk1 l]]; [by apply elem_of_nil in Hwk| |simpl in Hbound; lia].
    apply list_elem_of_singleton in Hwk as ->.
    destruct (w_pc wk0); try (rewrite <- Hsingle; by eexists).
    destruct Hsingle as [_ ->]. by eexists.
  - intros Hstuck.
    rewrite fileDownloader_state, Hon, Herr in Hrun.
    set (w1 := snd (os_Mkdir env dir w)) in *.
    pose proof (run_conserve_inv _ _ _ _ _ _ _ _ _ Hrun (launched_conserve_inv _ w1))
      as (_ & _ & Hphase).
    pose proof (run_counter_inv _ _ _ _ _ _ Hrun (launched_counter_inv _ w1)) as Hcount.
    destruct (stuck_is_completed _ _ _ _ Hcount Hstuck) as [_ Hexit].
    destruct Hcount as (_ & Hsp & _).
    unfold size_inv in Hsize.
    rewrite (stuck_spawner_exit _ _ _ _ Hsp Hstuck), Hone in Hsize.
    destruct (p_workers p) as [|wk0 [|wk1 l]]; [simpl in Hsize; lia| |simpl in Hsize; lia].
    apply Forall_cons in Hphase as [(Hclosed & Hlate & _) _].
    apply Forall_cons in Hexit as [Hrunning _].
    unfold running in Hrunning.
    assert (Hfilter : w_filter wk0 = FClosed).
    { apply Hlate. right. by destruct (w_pc wk0). }
    unfold pending in Hsingle. rewrite Hfilter, (Hclosed Hfilter) in Hsingle.
    destruct (w_pc wk0); try done. simpl.
    rewrite <- Hsingle. unfold sent_by. simpl. by rewrite app_nil_r.
Qed.

Lemma fileDownloader_single_worker_witness :
  workers opts_one = 1
  ∧ dumpfiles opts_one = true
  ∧ snd (fileDownloader env_ok opts_one "out" [file_a; file_a_again] w_empty) = None
  ∧ ∃ p,
      run env_ok opts_one "out" sched_complete
        (fst (fileDownloader env_ok opts_one "out" [file_a; file_a_again] w_empty))
      = Some p
      ∧ first_enabled env_ok opts_one "out" p = None
      ∧ map w_got (p_workers p)
        = [fst (seenFilter [file_a; file_a_again] w_empty)].
Proof.
  split; [reflexivity|]. split; [reflexivity|]. split; [reflexivity|].
  assert (Hsome : ∃ p,
             run env_ok opts_one "out" sched_complete
               (fst (fileDownloader env_ok opts_one "out" [file_a; file_a_again] w_empty))
             = Some p
             ∧ first_enabled env_ok opts_one "out" p = None)
    by (vm_compute; eexists; split; reflexivity).
  destruct Hsome as (p & Hrun & Hstuck).
  exists p. split; [exact Hrun|]. split; [exact Hstuck|].
  destruct (fileDownloader_single_worker env_ok opts_one "out" [file_a; file_a_again]
              w_empty sched_complete p eq_refl eq_refl eq_refl Hrun) as [_ H].
  exact (H (first_enabled_None _ _ _ _ Hstuck)).
Defined.
